(** * muEdge.c: Laplace, Sobel, Prewitt and Canny operators of mucore

    A shallow embedding of [src/mucore/src/muEdge.c] and the properties of
    its four entry points.

    Conventions of the embedding.
    - [MU_8U] pixels are [byte]s; a pixel read is promoted to [int] ([Z]).
    - [MU_32S] index and pixel arithmetic is carried out in [Z].  Signed
      overflow is undefined in C.  The loop counters and [width] are not
      negative inside the loops, so every index the model accepts bounds
      the partial sums it is made of: for buffers shorter than 2^31 bytes
      no accepted access involves an overflow.  Pixel sums stay within
      -2040 .. 2040.
    - The conversions to [MU_16S] and to [MU_8U] wrap, and are written out.
    - [in[k]] and [out[k] = v] are bounds-checked: an access outside the
      buffer makes the whole call yield [None] (undefined behaviour in C).
    - Source and destination buffers are distinct objects (no aliasing). *)

From Stdlib Require Import ZArith Lia.
From Stdlib Require Import Strings.Byte.
From stdpp Require Import base option list.

Local Open Scope Z_scope.

(** ** Declarations taken from muCore.h *)

(** Modelled from the spec: the status type of muCore.h, which is not part
    of muEdge.c.  [MU_ERR_SUCCESS] and [MU_ERR_NOT_SUPPORT] are the two
    constants the source names (Success and ChannelUnsupported in the
    spec); [DepthMismatch] is the spec's name for the status reported by
    the depth check.  [MU_ERR_SUCCESS] is the only status that tests false
    in [if(ret)]. *)
Inductive muError_t : Type :=
  | MU_ERR_SUCCESS
  | MU_ERR_NOT_SUPPORT
  | DepthMismatch.

(** Modelled from the spec: the declared bit depth of an image.  The source
    only names [MU_IMG_DEPTH_8U]; every other depth tag of muCore.h is
    kept as [MU_IMG_DEPTH_OTHER] with its numeric tag. *)
Inductive muDepth : Type :=
  | MU_IMG_DEPTH_8U
  | MU_IMG_DEPTH_OTHER (tag : Z).

(** The fields of [muImage_t] that muEdge.c reads.  [imagedata] is the
    content of the buffer the pointer designates. *)
Record muImage_t : Type := mkImage {
  width : Z;
  height : Z;
  channels : Z;
  depth : muDepth;
  imagedata : list byte
}.

Definition muDepth_eqb (a b : muDepth) : bool :=
  match a, b with
  | MU_IMG_DEPTH_8U, MU_IMG_DEPTH_8U => true
  | MU_IMG_DEPTH_OTHER s, MU_IMG_DEPTH_OTHER t => s =? t
  | _, _ => false
  end.

(** Modelled from the spec: [muCheckDepth] of muCore, which is not under
    src/.  It takes pairs (image, required depth) and fails with
    [DepthMismatch] at the first image whose declared depth differs; it has
    no side effect.  The C call passes the number of variadic arguments
    first, that is twice the length of [args]. *)
Fixpoint muCheckDepth (args : list (muImage_t * muDepth)) : muError_t :=
  match args with
  | [] => MU_ERR_SUCCESS
  | (img, d) :: rest =>
      if muDepth_eqb (depth img) d then muCheckDepth rest else DepthMismatch
  end.

(** [if(ret)] on a status. *)
Definition is_error (ret : muError_t) : bool :=
  match ret with
  | MU_ERR_SUCCESS => false
  | _ => true
  end.

(** ** Machine integers and buffers *)

(** Promotion of an [MU_8U] to [int]. *)
Definition Z_of_MU_8U (b : byte) : Z := Z.of_N (Byte.to_N b).

(** The cast [(MU_8U)z]: reduction modulo 2^8. *)
Definition MU_8U_of_Z (z : Z) : byte :=
  default x00 (Byte.of_N (Z.to_N (z mod 256))).

(** Conversion of an [int] to [MU_16S]: two's complement wrap-around. *)
Definition MU_16S_of_Z (z : Z) : Z := (z + 32768) mod 65536 - 32768.

(** [buf[k]] as an rvalue, bounds-checked. *)
Definition load (buf : list byte) (k : Z) : option Z :=
  if 0 <=? k then Z_of_MU_8U <$> buf !! Z.to_nat k else None.

(** [buf[k] = v], bounds-checked. *)
Definition store (buf : list byte) (k : Z) (v : byte) : option (list byte) :=
  if (0 <=? k) && (k <? Z.of_nat (length buf))
  then Some (<[Z.to_nat k := v]> buf)
  else None.

(** Runs [body] on the items of [ks] in order, threading the state and
    stopping at the first faulting access. *)
Fixpoint for_each {A S : Type} (ks : list A) (body : A → S → option S) (s : S)
  : option S :=
  match ks with
  | [] => Some s
  | k :: ks' => s' ← body k s; for_each ks' body s'
  end.

(** [for (k = 0; k < hi; k++) body]. *)
Definition for_lt {S : Type} (hi : Z) (body : Z → S → option S) (s : S)
  : option S :=
  for_each (seqZ 0 hi) body s.

(** ** The operators *)

(** [muLaplace(src, dst, selection)]: the status returned and the final
    content of the destination buffer. *)
Definition muLaplace (src dst : muImage_t) (selection : byte)
  : option (muError_t * list byte) :=
  let ret := muCheckDepth [(src, MU_IMG_DEPTH_8U); (dst, MU_IMG_DEPTH_8U)] in
  if is_error ret then Some (ret, imagedata dst)
  else if negb (channels src =? 1) || negb (channels dst =? 1)
  then Some (MU_ERR_NOT_SUPPORT, imagedata dst)
  else
    let width := width src in
    let height := height src in
    let inp := imagedata src in
    let out := imagedata dst in
    out ←
      match Z_of_MU_8U selection with
      | 1 =>
          for_lt (height - 1) (λ j, for_lt (width - 1) (λ i out,
            let index := i + width * j in
            temp ← (n ← load inp (index + 1);
                    w ← load inp (index + width);
                    e ← load inp (index + width + 2);
                    s ← load inp (index + Z.shiftl width 1 + 1);
                    c ← load inp (index + width + 1);
                    let temp :=
                      MU_16S_of_Z (Z.abs ((n + w + e + s) - Z.shiftl c 2)) in
                    let temp := if 255 <? temp then 255 else temp in
                    Some temp);
            store out (index + width + 1) (MU_8U_of_Z temp))) out
      | 2 =>
          for_lt (height - 1) (λ j, for_lt (width - 1) (λ i out,
            let index := i + width * j in
            temp ← (a0 ← load inp index;
                    a1 ← load inp (index + 1);
                    a2 ← load inp (index + 2);
                    b0 ← load inp (index + width);
                    b2 ← load inp (index + width + 2);
                    c0 ← load inp (index + Z.shiftl width 1);
                    c1 ← load inp (index + Z.shiftl width 1 + 1);
                    c2 ← load inp (index + Z.shiftl width 1 + 2);
                    b1 ← load inp (index + width + 1);
                    let temp :=
                      MU_16S_of_Z
                        (Z.abs ((a0 + a1 + a2 + b0 + b2 + c0 + c1 + c2)
                                - Z.shiftl b1 3)) in
                    let temp := if 255 <? temp then 255 else temp in
                    Some temp);
            store out (index + width + 1) (MU_8U_of_Z temp))) out
      | _ => Some out
      end;
    Some (MU_ERR_SUCCESS, out).

(** [muSobel(src, dst)], software path (neither HISI3516 nor HISI3531 is
    defined, so the platform shunt is compiled out). *)
Definition muSobel (src dst : muImage_t) : option (muError_t * list byte) :=
  let ret := muCheckDepth [(src, MU_IMG_DEPTH_8U); (dst, MU_IMG_DEPTH_8U)] in
  if is_error ret then Some (ret, imagedata dst)
  else if negb (channels src =? 1) || negb (channels dst =? 1)
  then Some (MU_ERR_NOT_SUPPORT, imagedata dst)
  else
    let width := width src in
    let height := height src in
    let inp := imagedata src in
    let out := imagedata dst in
    out ←
      for_lt (height - 1) (λ j, for_lt (width - 1) (λ i out,
        let index := i + width * j in
        temp ← (a0 ← load inp index;
                a1 ← load inp (index + 1);
                a2 ← load inp (index + 2);
                c0 ← load inp (index + Z.shiftl width 1);
                c1 ← load inp (index + Z.shiftl width 1 + 1);
                c2 ← load inp (index + Z.shiftl width 1 + 2);
                let gx :=
                  (a0 + Z.shiftl a1 1 + a2) - (c0 + Z.shiftl c1 1 + c2) in
                a0' ← load inp index;
                b0 ← load inp (index + width);
                c0' ← load inp (index + Z.shiftl width 1);
                a2' ← load inp (index + 2);
                b2 ← load inp (index + width + 2);
                c2' ← load inp (index + Z.shiftl width 1 + 2);
                let gy :=
                  (a0' + Z.shiftl b0 1 + c0') - (a2' + Z.shiftl b2 1 + c2') in
                let temp := MU_16S_of_Z (Z.abs gx + Z.abs gy) in
                let temp := if 255 <? temp then 255 else temp in
                let temp := if temp <? 0 then 0 else temp in
                Some temp);
        store out (index + width + 1) (MU_8U_of_Z temp))) out;
    Some (MU_ERR_SUCCESS, out).

(** [muPrewitt(src, dst)]. *)
Definition muPrewitt (src dst : muImage_t) : option (muError_t * list byte) :=
  let ret := muCheckDepth [(src, MU_IMG_DEPTH_8U); (dst, MU_IMG_DEPTH_8U)] in
  if is_error ret then Some (ret, imagedata dst)
  else if negb (channels src =? 1) || negb (channels dst =? 1)
  then Some (MU_ERR_NOT_SUPPORT, imagedata dst)
  else
    let width := width src in
    let height := height src in
    let inp := imagedata src in
    let out := imagedata dst in
    out ←
      for_lt (height - 1) (λ j, for_lt (width - 1) (λ i out,
        let index := i + width * j in
        temp ← (a0 ← load inp index;
                a1 ← load inp (index + 1);
                a2 ← load inp (index + 2);
                c0 ← load inp (index + Z.shiftl width 1);
                c1 ← load inp (index + Z.shiftl width 1 + 1);
                c2 ← load inp (index + Z.shiftl width 1 + 2);
                let gx := (a0 + a1 + a2) - (c0 + c1 + c2) in
                a0' ← load inp index;
                b0 ← load inp (index + width);
                c0' ← load inp (index + Z.shiftl width 1);
                a2' ← load inp (index + 2);
                b2 ← load inp (index + width + 2);
                c2' ← load inp (index + Z.shiftl width 1 + 2);
                let gy := (a0' + b0 + c0') - (a2' + b2 + c2') in
                let temp := MU_16S_of_Z (Z.abs gx + Z.abs gy) in
                let temp := if 255 <? temp then 255 else temp in
                let temp := if temp <? 0 then 0 else temp in
                Some temp);
        store out (index + width + 1) (MU_8U_of_Z temp))) out;
    Some (MU_ERR_SUCCESS, out).

(** [muCanny(src, dst, ang)]: the body is a single [return]; the checks
    are inside a comment.  The result is the status, the destination
    buffer and the angle buffer. *)
Definition muCanny (src dst ang : muImage_t)
  : muError_t * list byte * list byte :=
  (MU_ERR_SUCCESS, imagedata dst, imagedata ang).

(** ** The loop bodies in isolation

    The value of [temp] at the store, as a function of the source buffer,
    the stride and the window origin's index: the reads and the arithmetic
    of one iteration, without the store. *)

Definition laplace1_temp (inp : list byte) (width index : Z) : option Z :=
  n ← load inp (index + 1);
  w ← load inp (index + width);
  e ← load inp (index + width + 2);
  s ← load inp (index + Z.shiftl width 1 + 1);
  c ← load inp (index + width + 1);
  let temp := MU_16S_of_Z (Z.abs ((n + w + e + s) - Z.shiftl c 2)) in
  let temp := if 255 <? temp then 255 else temp in
  Some temp.

Definition laplace2_temp (inp : list byte) (width index : Z) : option Z :=
  a0 ← load inp index;
  a1 ← load inp (index + 1);
  a2 ← load inp (index + 2);
  b0 ← load inp (index + width);
  b2 ← load inp (index + width + 2);
  c0 ← load inp (index + Z.shiftl width 1);
  c1 ← load inp (index + Z.shiftl width 1 + 1);
  c2 ← load inp (index + Z.shiftl width 1 + 2);
  b1 ← load inp (index + width + 1);
  let temp :=
    MU_16S_of_Z
      (Z.abs ((a0 + a1 + a2 + b0 + b2 + c0 + c1 + c2) - Z.shiftl b1 3)) in
  let temp := if 255 <? temp then 255 else temp in
  Some temp.

Definition sobel_temp (inp : list byte) (width index : Z) : option Z :=
  a0 ← load inp index;
  a1 ← load inp (index + 1);
  a2 ← load inp (index + 2);
  c0 ← load inp (index + Z.shiftl width 1);
  c1 ← load inp (index + Z.shiftl width 1 + 1);
  c2 ← load inp (index + Z.shiftl width 1 + 2);
  let gx := (a0 + Z.shiftl a1 1 + a2) - (c0 + Z.shiftl c1 1 + c2) in
  a0' ← load inp index;
  b0 ← load inp (index + width);
  c0' ← load inp (index + Z.shiftl width 1);
  a2' ← load inp (index + 2);
  b2 ← load inp (index + width + 2);
  c2' ← load inp (index + Z.shiftl width 1 + 2);
  let gy := (a0' + Z.shiftl b0 1 + c0') - (a2' + Z.shiftl b2 1 + c2') in
  let temp := MU_16S_of_Z (Z.abs gx + Z.abs gy) in
  let temp := if 255 <? temp then 255 else temp in
  let temp := if temp <? 0 then 0 else temp in
  Some temp.

Definition prewitt_temp (inp : list byte) (width index : Z) : option Z :=
  a0 ← load inp index;
  a1 ← load inp (index + 1);
  a2 ← load inp (index + 2);
  c0 ← load inp (index + Z.shiftl width 1);
  c1 ← load inp (index + Z.shiftl width 1 + 1);
  c2 ← load inp (index + Z.shiftl width 1 + 2);
  let gx := (a0 + a1 + a2) - (c0 + c1 + c2) in
  a0' ← load inp index;
  b0 ← load inp (index + width);
  c0' ← load inp (index + Z.shiftl width 1);
  a2' ← load inp (index + 2);
  b2 ← load inp (index + width + 2);
  c2' ← load inp (index + Z.shiftl width 1 + 2);
  let gy := (a0' + b0 + c0') - (a2' + b2 + c2') in
  let temp := MU_16S_of_Z (Z.abs gx + Z.abs gy) in
  let temp := if 255 <? temp then 255 else temp in
  let temp := if temp <? 0 then 0 else temp in
  Some temp.

(** The two nested loops the three software paths share: for each window
    origin [(i, j)], with [index = i + width*j], the value of [temp] is
    stored at [out[index + width + 1]]. *)
Definition scan (temp_of : list byte → Z → Z → option Z)
    (inp : list byte) (width height : Z) (out : list byte)
  : option (list byte) :=
  for_lt (height - 1) (λ j, for_lt (width - 1) (λ i out,
    let index := i + width * j in
    temp ← temp_of inp width index;
    store out (index + width + 1) (MU_8U_of_Z temp))) out.

(** The depth and channel checks that open [muLaplace], [muSobel] and
    [muPrewitt]; [None] when both pass. *)
Definition check_images (src dst : muImage_t) : option muError_t :=
  let ret := muCheckDepth [(src, MU_IMG_DEPTH_8U); (dst, MU_IMG_DEPTH_8U)] in
  if is_error ret then Some ret
  else if negb (channels src =? 1) || negb (channels dst =? 1)
  then Some MU_ERR_NOT_SUPPORT
  else None.

(** A pair of images that passes the depth and channel checks. *)
Definition valid_pair (src dst : muImage_t) : Prop :=
  depth src = MU_IMG_DEPTH_8U ∧ depth dst = MU_IMG_DEPTH_8U ∧
  channels src = 1 ∧ channels dst = 1.


(** ** The responses in the words of the specification *)

(** The pixel at linear offset [k] of a buffer, promoted to [int]; 0 when
    [k] is outside the buffer. *)
Definition pixel (inp : list byte) (k : Z) : Z := default 0 (load inp k).

(** Row-major addressing with implicit stride [w]: the pixel at column [x]
    and row [y]. *)
Definition pixel_at (inp : list byte) (w x y : Z) : Z := pixel inp (x + w * y).

(** The 3x3 neighbourhood anchored at the window origin [(i, j)]:
    [window inp w i j dx dy] is the pixel [dx] columns to the right of and
    [dy] rows below the origin. *)
Definition window (inp : list byte) (w i j : Z) : Z → Z → Z :=
  λ dx dy, pixel_at inp w (i + dx) (j + dy).

Section Responses.

(** [p dx dy], for [dx] and [dy] in 0..2, is a 3x3 neighbourhood: [p 0 0]
    is top-left, [p 1 0] top-mid, [p 2 0] top-right, [p 0 1] mid-left,
    [p 1 1] the centre, [p 2 1] mid-right, [p 0 2] bottom-left, [p 1 2]
    bottom-mid and [p 2 2] bottom-right. *)
Variable p : Z → Z → Z.

Definition sobel_Gx : Z :=
  (p 0 0 + 2 * p 1 0 + p 2 0) - (p 0 2 + 2 * p 1 2 + p 2 2).

Definition sobel_Gy : Z :=
  (p 0 0 + 2 * p 0 1 + p 0 2) - (p 2 0 + 2 * p 2 1 + p 2 2).

Definition sobel_response : Z := Z.min 255 (Z.abs sobel_Gx + Z.abs sobel_Gy).

Definition prewitt_Gx : Z := (p 0 0 + p 1 0 + p 2 0) - (p 0 2 + p 1 2 + p 2 2).

Definition prewitt_Gy : Z := (p 0 0 + p 0 1 + p 0 2) - (p 2 0 + p 2 1 + p 2 2).

Definition prewitt_response : Z :=
  Z.min 255 (Z.abs prewitt_Gx + Z.abs prewitt_Gy).

(** Selector 1: the four axis-aligned neighbours N, S, E, W of the centre
    against four times the centre. *)
Definition laplace4_response : Z :=
  Z.min 255 (Z.abs (p 1 0 + p 1 2 + p 2 1 + p 0 1 - 4 * p 1 1)).

(** Selector 2: all eight neighbours against eight times the centre. *)
Definition laplace8_response : Z :=
  Z.min 255
    (Z.abs (p 0 0 + p 1 0 + p 2 0 + p 0 1 + p 2 1 + p 0 2 + p 1 2 + p 2 2
            - 8 * p 1 1)).

End Responses.

(** The window origins in the order the loops visit them. *)
Definition origins (w h : Z) : list (Z * Z) :=
  j ← seqZ 0 (h - 1); (λ i, (i, j)) <$> seqZ 0 (w - 1).

(** The linear offset the loop body stores to for the origin [(i, j)]. *)
Definition inset (w : Z) (o : Z * Z) : Z := o.1 + w * o.2 + w + 1.

(** ** Sample images *)

(** A 3x3 raster whose buffer is followed by four more bytes, so that every
    read of the loops is inside it. *)
Definition sample_src : muImage_t :=
  mkImage 3 3 1 MU_IMG_DEPTH_8U
    [x0a; x14; x1e;
     x28; xff; x3c;
     x46; x50; x5a;
     x00; x00; x00; x00].

(** A 3x3 destination filled with the sentinel 0xaa. *)
Definition sample_dst : muImage_t :=
  mkImage 3 3 1 MU_IMG_DEPTH_8U
    [xaa; xaa; xaa;
     xaa; xaa; xaa;
     xaa; xaa; xaa].

(** A 3x3 angle image for [muCanny]. *)
Definition sample_ang : muImage_t :=
  mkImage 3 3 1 MU_IMG_DEPTH_8U
    [x01; x02; x03;
     x04; x05; x06;
     x07; x08; x09].

(** The sample source declared with another depth, and with three
    channels. *)
Definition sample_src_depth16 : muImage_t :=
  mkImage 3 3 1 (MU_IMG_DEPTH_OTHER 16) (imagedata sample_src).

Definition sample_src_rgb : muImage_t :=
  mkImage 3 3 3 MU_IMG_DEPTH_8U (imagedata sample_src).

(** A single row of five pixels. *)
Definition sample_row : muImage_t :=
  mkImage 5 1 1 MU_IMG_DEPTH_8U [x0a; x14; x1e; x28; x32].

(** A uniform 3x3 raster (every pixel 0x50), followed by four bytes of
    another value. *)
Definition sample_uniform : muImage_t :=
  mkImage 3 3 1 MU_IMG_DEPTH_8U
    [x50; x50; x50;
     x50; x50; x50;
     x50; x50; x50;
     x07; x07; x07; x07].

(** A 2x2 raster in a buffer of exactly four bytes, and a 2x2 destination. *)
Definition sample_2x2 : muImage_t :=
  mkImage 2 2 1 MU_IMG_DEPTH_8U [x0a; x14; x1e; x28].

Definition sample_dst_2x2 : muImage_t :=
  mkImage 2 2 1 MU_IMG_DEPTH_8U [xaa; xaa; xaa; xaa].

(** ** The bright pixel scenario *)

(** The 4x4 raster whose only non-zero pixel is 255 at column 1, row 1; its
    buffer continues with the bytes [pad]. *)
Definition bright_pixel (pad : list byte) : muImage_t :=
  mkImage 4 4 1 MU_IMG_DEPTH_8U
    ([x00; x00; x00; x00;
      x00; xff; x00; x00;
      x00; x00; x00; x00;
      x00; x00; x00; x00] ++ pad).

(** A zeroed 4x4 destination. *)
Definition zero_4x4 : muImage_t :=
  mkImage 4 4 1 MU_IMG_DEPTH_8U
    [x00; x00; x00; x00;
     x00; x00; x00; x00;
     x00; x00; x00; x00;
     x00; x00; x00; x00].

(** What muSobel leaves in [zero_4x4] for [bright_pixel] with five more
    zero bytes. *)
Definition bright_pixel_sobel : list byte :=
  [x00; x00; x00; x00;
   x00; x00; xff; x00;
   x00; xff; xff; x00;
   x00; x00; x00; x00].

(** Interior pixels of a [w]x[h] raster: the 3x3 neighbourhood centred on
    them lies within the raster. *)
Definition interior (w h x y : Z) : Prop := 1 ≤ x ≤ w - 2 ∧ 1 ≤ y ≤ h - 2.

(** 8-adjacency of two distinct pixels. *)
Definition adjacent (x y x0 y0 : Z) : Prop :=
  (x ≠ x0 ∨ y ≠ y0) ∧ Z.abs (x - x0) ≤ 1 ∧ Z.abs (y - y0) ≤ 1.

(** The response an operator left at column [x], row [y]. *)
Definition response_at (out : list byte) (w x y : Z) : option Z :=
  load out (x + w * y).

(** ** The outcome of a pass *)

(** [out'] is [out] after a pass with stride [w] over [h] rows: the byte one
    row and one column inset from each window origin holds the response
    [resp] of the origin's window, and every other byte is as in [out]. *)
Definition pass_result (resp : (Z → Z → Z) → Z) (inp : list byte) (w h : Z)
    (out out' : list byte) : Prop :=
  length out' = length out ∧
  (∀ i j, 0 ≤ i < w - 1 → 0 ≤ j < h - 1 →
          load out' ((i + 1) + w * (j + 1)) = Some (resp (window inp w i j))) ∧
  (∀ n : nat,
      (∀ i j, 0 ≤ i < w - 1 → 0 ≤ j < h - 1 →
              Z.to_nat ((i + 1) + w * (j + 1)) ≠ n) →
      out' !! n = out !! n).

(** The results of the four software paths on one pair of images:
    [muLaplace] with selector 1 and with selector 2, [muSobel] and
    [muPrewitt]. *)
Definition software_paths (src dst : muImage_t)
  : list (option (muError_t * list byte)) :=
  [muLaplace src dst x01; muLaplace src dst x02;
   muSobel src dst; muPrewitt src dst].

(** ** Further definitions for the properties of the passes *)

(** The image [img] with the content of its buffer replaced by [data]: a
    destination after a call, or a source with other pixels. *)
Definition with_imagedata (img : muImage_t) (data : list byte) : muImage_t :=
  mkImage (width img) (height img) (channels img) (depth img) data.

(** An image without pixels. *)
Definition sample_empty : muImage_t := mkImage 0 0 1 MU_IMG_DEPTH_8U [].

(** The 3x3 raster of [sample_src] in a buffer of twelve bytes: it reaches
    offset 11, the last offset selector 1 of [muLaplace] reads. *)
Definition sample_src_12 : muImage_t :=
  mkImage 3 3 1 MU_IMG_DEPTH_8U
    [x0a; x14; x1e;
     x28; xff; x3c;
     x46; x50; x5a;
     x00; x00; x00].

(** The responses of the four software paths, in the order of
    [software_paths]. *)
Definition path_responses : list ((Z → Z → Z) → Z) :=
  [laplace4_response; laplace8_response; sobel_response; prewitt_response].

(** The window of the last origin of row [j], [(w-2, j)], as the loops
    address it: its right column is at offsets [w*(j+dy) + w], that is the
    left column of the raster one row further down. *)
Definition wrapped_window (inp : list byte) (w j : Z) : Z → Z → Z :=
  λ dx dy,
    if dx =? 2 then pixel_at inp w 0 (j + dy + 1)
    else pixel_at inp w (w - 2 + dx) (j + dy).

(** A dark 3x3 raster with four more bytes, and the same buffer with 100
    added to every byte. *)
Definition sample_dark : muImage_t :=
  mkImage 3 3 1 MU_IMG_DEPTH_8U
    [x0a; x14; x1e;
     x28; x96; x3c;
     x46; x50; x5a;
     x01; x02; x03; x04].

Definition sample_light_data : list byte :=
  [x6e; x78; x82;
   x8c; xfa; xa0;
   xaa; xb4; xbe;
   x65; x66; x67; x68].

(** A 3x3 raster with one non-zero pixel, 0x80, at its centre. *)
Definition sample_isolated : muImage_t :=
  mkImage 3 3 1 MU_IMG_DEPTH_8U
    [x00; x00; x00;
     x00; x80; x00;
     x00; x00; x00;
     x00; x00; x00; x00].

(** A 4x3 raster, and the 3x4 raster that is its transpose; both buffers
    reach past the offsets the loops read. *)
Definition sample_wide : muImage_t :=
  mkImage 4 3 1 MU_IMG_DEPTH_8U
    [x0a; x14; x1e; x28;
     x32; xc8; x46; x50;
     x5a; x64; x6e; x78;
     x00; x00; x00; x00; x00].

Definition sample_tall : muImage_t :=
  mkImage 3 4 1 MU_IMG_DEPTH_8U
    [x0a; x32; x5a;
     x14; xc8; x64;
     x1e; x46; x6e;
     x28; x50; x78;
     x00; x00; x00; x00].

Definition sample_dst_12 : muImage_t :=
  mkImage 4 3 1 MU_IMG_DEPTH_8U
    [xaa; xaa; xaa; xaa;
     xaa; xaa; xaa; xaa;
     xaa; xaa; xaa; xaa].

(** The raster of [sample_src] followed by other bytes. *)
Definition sample_src_other_padding : muImage_t :=
  mkImage 3 3 1 MU_IMG_DEPTH_8U
    [x0a; x14; x1e;
     x28; xff; x3c;
     x46; x50; x5a;
     xde; xad; xbe; xef; x99].
(** ** The operators in terms of their loop bodies *)

Lemma muLaplace_unfold src dst selection :
  muLaplace src dst selection =
  match check_images src dst with
  | Some ret => Some (ret, imagedata dst)
  | None =>
      out ← match Z_of_MU_8U selection with
            | 1 => scan laplace1_temp (imagedata src) (width src) (height src)
                     (imagedata dst)
            | 2 => scan laplace2_temp (imagedata src) (width src) (height src)
                     (imagedata dst)
            | _ => Some (imagedata dst)
            end;
      Some (MU_ERR_SUCCESS, out)
  end.
Proof.
  unfold muLaplace, check_images.
  destruct (is_error _); [reflexivity|].
  destruct (negb _ || negb _); reflexivity.
Qed.

Lemma muSobel_unfold src dst :
  muSobel src dst =
  match check_images src dst with
  | Some ret => Some (ret, imagedata dst)
  | None =>
      out ← scan sobel_temp (imagedata src) (width src) (height src)
              (imagedata dst);
      Some (MU_ERR_SUCCESS, out)
  end.
Proof.
  unfold muSobel, check_images.
  destruct (is_error _); [reflexivity|].
  destruct (negb _ || negb _); reflexivity.
Qed.

Lemma muPrewitt_unfold src dst :
  muPrewitt src dst =
  match check_images src dst with
  | Some ret => Some (ret, imagedata dst)
  | None =>
      out ← scan prewitt_temp (imagedata src) (width src) (height src)
              (imagedata dst);
      Some (MU_ERR_SUCCESS, out)
  end.
Proof.
  unfold muPrewitt, check_images.
  destruct (is_error _); [reflexivity|].
  destruct (negb _ || negb _); reflexivity.
Qed.

(** ** Validation *)

Lemma muDepth_eqb_eq a b : muDepth_eqb a b = true ↔ a = b.
Proof.
  destruct a as [|s], b as [|t]; simpl; try (split; congruence).
  rewrite Z.eqb_eq. split; congruence.
Qed.

Lemma muDepth_eqb_neq a b : muDepth_eqb a b = false ↔ a ≠ b.
Proof.
  rewrite <- muDepth_eqb_eq. destruct (muDepth_eqb a b); split; congruence.
Qed.

Lemma check_images_valid src dst :
  valid_pair src dst → check_images src dst = None.
Proof.
  intros (Hs & Hd & Hcs & Hcd). unfold check_images. simpl.
  rewrite Hs, Hd, Hcs, Hcd. reflexivity.
Qed.

Lemma check_images_depth src dst :
  depth src ≠ MU_IMG_DEPTH_8U ∨ depth dst ≠ MU_IMG_DEPTH_8U →
  check_images src dst = Some DepthMismatch.
Proof.
  unfold check_images. simpl. intros [H|H].
  - apply muDepth_eqb_neq in H. rewrite H. reflexivity.
  - apply muDepth_eqb_neq in H. rewrite H.
    destruct (muDepth_eqb (depth src) _); reflexivity.
Qed.

Lemma check_images_channels src dst :
  depth src = MU_IMG_DEPTH_8U → depth dst = MU_IMG_DEPTH_8U →
  channels src ≠ 1 ∨ channels dst ≠ 1 →
  check_images src dst = Some MU_ERR_NOT_SUPPORT.
Proof.
  intros Hs Hd Hc. unfold check_images. simpl. rewrite Hs, Hd. simpl.
  destruct (Z.eqb_spec (channels src) 1), (Z.eqb_spec (channels dst) 1);
    simpl; try reflexivity.
  destruct Hc; contradiction.
Qed.

(** ** Loops *)

Lemma for_each_app {A S} (l1 l2 : list A) (body : A → S → option S) s :
  for_each (l1 ++ l2) body s = s' ← for_each l1 body s; for_each l2 body s'.
Proof.
  revert s. induction l1 as [|k l1 IH]; intros s; simpl; [reflexivity|].
  destruct (body k s) as [s1|]; simpl; [apply IH | reflexivity].
Qed.

Lemma for_each_skip {A S} (l : list A) (body : A → S → option S) s :
  (∀ k t, k ∈ l → body k t = Some t) → for_each l body s = Some s.
Proof.
  induction l as [|k l IH]; intros Hb; simpl; [reflexivity|].
  rewrite Hb by left. simpl. apply IH. intros. apply Hb. by right.
Qed.

Lemma for_each_fault {A S} (l : list A) (body : A → S → option S) k s :
  k ∈ l → (∀ t, body k t = None) → for_each l body s = None.
Proof.
  intros Hk Hb. revert s. induction l as [|a l IH]; intros s.
  - by apply elem_of_nil in Hk.
  - simpl. apply elem_of_cons in Hk as [->|Hk].
    + by rewrite Hb.
    + destruct (body a s); simpl; [by apply IH | reflexivity].
Qed.

(** With at most one column or at most one row there is no window origin
    and the loops leave the destination as it is. *)
Lemma scan_no_origin temp_of inp w h out :
  w ≤ 1 ∨ h ≤ 1 → scan temp_of inp w h out = Some out.
Proof.
  intros Hwh. unfold scan, for_lt.
  apply for_each_skip. intros j t Hj.
  destruct Hwh as [Hw|Hh].
  - by rewrite seqZ_nil by lia.
  - apply elem_of_seqZ in Hj. lia.
Qed.

Lemma for_each_fmap {A B S} (f : A → B) (l : list A)
    (body : B → S → option S) s :
  for_each (f <$> l) body s = for_each l (λ a, body (f a)) s.
Proof.
  revert s. induction l as [|a l IH]; intros s; simpl; [reflexivity|].
  destruct (body (f a) s); simpl; [apply IH | reflexivity].
Qed.

Lemma for_each_bind {A B S} (g : A → list B) (l : list A)
    (body : B → S → option S) s :
  for_each (l ≫= g) body s = for_each l (λ a, for_each (g a) body) s.
Proof.
  revert s. induction l as [|a l IH]; intros s; [reflexivity|].
  change ((a :: l) ≫= g) with (g a ++ (l ≫= g)).
  rewrite for_each_app. simpl.
  destruct (for_each (g a) body s); simpl; [apply IH | reflexivity].
Qed.

Lemma for_each_ext {A S} (l : list A) (f g : A → S → option S) s :
  (∀ a t, f a t = g a t) → for_each l f s = for_each l g s.
Proof.
  intros Hfg. revert s. induction l as [|a l IH]; intros s; simpl;
    [reflexivity|].
  rewrite Hfg. destruct (g a s); simpl; [apply IH | reflexivity].
Qed.

(** The nested loops visit [origins] in order. *)
Lemma scan_origins temp_of inp w h out :
  scan temp_of inp w h out =
  for_each (origins w h)
    (λ o out, temp ← temp_of inp w (o.1 + w * o.2);
              store out (inset w o) (MU_8U_of_Z temp)) out.
Proof.
  unfold scan, for_lt, origins. rewrite for_each_bind.
  apply for_each_ext. intros j s. rewrite for_each_fmap. reflexivity.
Qed.

(** ** Machine integers and bounds-checked accesses *)

Lemma Z_of_MU_8U_range b : 0 ≤ Z_of_MU_8U b ≤ 255.
Proof. unfold Z_of_MU_8U. pose proof (Byte.to_N_bounded b). lia. Qed.

Lemma Z_of_MU_8U_of_Z z : 0 ≤ z ≤ 255 → Z_of_MU_8U (MU_8U_of_Z z) = z.
Proof.
  intros Hz. unfold Z_of_MU_8U, MU_8U_of_Z. rewrite Z.mod_small by lia.
  destruct (Byte.of_N (Z.to_N z)) as [b|] eqn:E; simpl.
  - apply Byte.to_of_N in E. rewrite E. lia.
  - apply Byte.of_N_None_iff in E. lia.
Qed.

Lemma MU_16S_of_Z_small z : -32768 ≤ z < 32768 → MU_16S_of_Z z = z.
Proof. intros Hz. unfold MU_16S_of_Z. rewrite Z.mod_small by lia. lia. Qed.

Lemma pixel_range inp k : 0 ≤ pixel inp k ≤ 255.
Proof.
  unfold pixel, load. destruct (0 <=? k); simpl; [|lia].
  destruct (inp !! Z.to_nat k); simpl; [apply Z_of_MU_8U_range | lia].
Qed.

Lemma load_inside inp k :
  0 ≤ k < Z.of_nat (length inp) → load inp k = Some (pixel inp k).
Proof.
  intros Hk. unfold pixel, load.
  destruct (Z.leb_spec 0 k); [|lia].
  destruct (lookup_lt_is_Some_2 inp (Z.to_nat k)) as [b Hb]; [lia|].
  rewrite Hb. reflexivity.
Qed.

Lemma load_outside inp k :
  k < 0 ∨ Z.of_nat (length inp) ≤ k → load inp k = None.
Proof.
  intros Hk. unfold load. destruct (Z.leb_spec 0 k); [|reflexivity].
  rewrite lookup_ge_None_2 by lia. reflexivity.
Qed.

Lemma load_is_Some inp k :
  is_Some (load inp k) ↔ 0 ≤ k < Z.of_nat (length inp).
Proof.
  split.
  - intros [v Hv].
    destruct (decide (0 ≤ k < Z.of_nat (length inp))) as [|Hn]; [done|].
    rewrite load_outside in Hv by lia. discriminate.
  - intros Hk. rewrite load_inside by done. eauto.
Qed.

Lemma store_inside out k v :
  0 ≤ k < Z.of_nat (length out) →
  store out k v = Some (<[Z.to_nat k := v]> out).
Proof.
  intros Hk. unfold store.
  destruct (Z.leb_spec 0 k), (Z.ltb_spec k (Z.of_nat (length out)));
    simpl; (reflexivity || lia).
Qed.

Lemma store_outside out k v :
  k < 0 ∨ Z.of_nat (length out) ≤ k → store out k v = None.
Proof.
  intros Hk. unfold store.
  destruct (Z.leb_spec 0 k), (Z.ltb_spec k (Z.of_nat (length out)));
    simpl; (reflexivity || lia).
Qed.

Lemma load_lookup out k b :
  0 ≤ k → out !! Z.to_nat k = Some b → load out k = Some (Z_of_MU_8U b).
Proof.
  intros Hk Hb. unfold load. destruct (Z.leb_spec 0 k); [|lia].
  rewrite Hb. reflexivity.
Qed.

(** ** A loop of stores

    A loop whose body computes a value from data the loop does not modify
    and stores it at a position of the destination: every position stored
    to holds the value of its item, every other position is unchanged. *)

Section StoreLoop.

Context {A : Type} (pos : A → Z) (val : A → option Z).

Lemma for_each_store (l : list A) (out : list byte) :
  (∀ a, a ∈ l → is_Some (val a) ∧ 0 ≤ pos a < Z.of_nat (length out)) →
  ∃ out',
    for_each l (λ a out, temp ← val a; store out (pos a) (MU_8U_of_Z temp))
      out = Some out' ∧
    length out' = length out ∧
    (∀ n : nat, (∀ a, a ∈ l → Z.to_nat (pos a) ≠ n) → out' !! n = out !! n) ∧
    (∀ a, a ∈ l → (∀ b, b ∈ l → pos b = pos a → val b = val a) →
          out' !! Z.to_nat (pos a) = MU_8U_of_Z <$> val a).
Proof.
  revert out. induction l as [|a0 l IH]; intros out Hl.
  - exists out. simpl. do 3 (split; [done|]).
    intros a Ha. by apply elem_of_nil in Ha.
  - destruct (Hl a0) as [[t0 Ht0] Hp0]; [by left|].
    simpl. rewrite Ht0. simpl. rewrite store_inside by done.
    set (out1 := <[Z.to_nat (pos a0) := MU_8U_of_Z t0]> out).
    destruct (IH out1) as (out' & Hrun & Hlen & Hframe & Hval).
    { intros a Ha. unfold out1. rewrite length_insert.
      apply Hl. by right. }
    exists out'. split; [exact Hrun|]. split.
    { rewrite Hlen. unfold out1. apply length_insert. }
    split.
    + intros n Hn. rewrite Hframe.
      * unfold out1. apply list_lookup_insert_ne. apply Hn. by left.
      * intros a Ha. apply Hn. by right.
    + intros a Ha Hc.
      destruct (decide (pos a ∈ pos <$> l)) as [Hin|Hout].
      * apply list_elem_of_fmap in Hin as (b & Hpb & Hb).
        rewrite Hpb, (Hval b Hb).
        -- f_equal. apply Hc; [by right | done].
        -- intros c Hcl Hpc. rewrite (Hc c), (Hc b); try done.
           ++ by right.
           ++ by right.
           ++ congruence.
      * assert (a = a0) as ->.
        { apply elem_of_cons in Ha as [->|Ha]; [done|].
          destruct Hout. by apply list_elem_of_fmap_2. }
        rewrite Hframe.
        -- unfold out1. rewrite list_lookup_insert_eq by lia.
           rewrite Ht0. reflexivity.
        -- intros b Hb Heq. apply Hout.
           apply list_elem_of_fmap. exists b. split; [|done].
           destruct (Hl b) as [_ ?]; [by right|]. lia.
Qed.

(** A loop of stores that completes computed every value and stored inside
    the destination. *)
Lemma for_each_store_inv (l : list A) (out out' : list byte) :
  for_each l (λ a out, temp ← val a; store out (pos a) (MU_8U_of_Z temp))
    out = Some out' →
  ∀ a, a ∈ l → is_Some (val a) ∧ 0 ≤ pos a < Z.of_nat (length out).
Proof.
  revert out. induction l as [|a0 l IH]; intros out Hrun a Ha.
  - by apply elem_of_nil in Ha.
  - simpl in Hrun.
    destruct (val a0) as [t0|] eqn:E0; simpl in Hrun; [|discriminate].
    destruct (decide (0 ≤ pos a0 < Z.of_nat (length out))) as [Hin|Hout].
    + rewrite store_inside in Hrun by done.
      apply elem_of_cons in Ha as [->|Ha]; [rewrite E0; eauto|].
      specialize (IH _ Hrun a Ha). by rewrite length_insert in IH.
    + rewrite store_outside in Hrun by lia. discriminate.
Qed.

End StoreLoop.

(** ** Window origins *)

Lemma elem_of_origins w h o :
  o ∈ origins w h ↔ (0 ≤ o.1 < w - 1) ∧ (0 ≤ o.2 < h - 1).
Proof.
  unfold origins. rewrite list_elem_of_bind. split.
  - intros (j & Ho & Hj). apply list_elem_of_fmap in Ho as (i & -> & Hi).
    apply elem_of_seqZ in Hi, Hj. simpl. lia.
  - intros [Hi Hj]. exists o.2. split.
    + apply list_elem_of_fmap. exists o.1. split; [by destruct o|].
      apply elem_of_seqZ. lia.
    + apply elem_of_seqZ. lia.
Qed.

(** The store of an origin lands inside the [w]x[h] raster, one row and
    one column inset from the origin. *)
Lemma inset_inside w h o :
  o ∈ origins w h → 0 ≤ inset w o < w * h.
Proof.
  rewrite elem_of_origins. unfold inset. destruct o as [i j]; simpl.
  intros [Hi Hj]. split; [nia|].
  assert (w * (j + 2) ≤ w * h) by (apply Z.mul_le_mono_nonneg_l; lia).
  lia.
Qed.

(** Distinct origins store to distinct positions. *)
Lemma inset_inj w h o1 o2 :
  o1 ∈ origins w h → o2 ∈ origins w h → inset w o1 = inset w o2 → o1 = o2.
Proof.
  rewrite !elem_of_origins. unfold inset.
  destruct o1 as [i1 j1], o2 as [i2 j2]; simpl.
  intros [Hi1 Hj1] [Hi2 Hj2] Heq.
  assert (j1 = j2) as -> by nia.
  f_equal. lia.
Qed.

(** The nested loops, when every iteration computes its value and stores
    inside the destination. *)
Lemma scan_run temp_of inp w h out (val : Z → Z → Z) :
  (∀ i j, 0 ≤ i < w - 1 → 0 ≤ j < h - 1 →
          temp_of inp w (i + w * j) = Some (val i j)) →
  (∀ i j, 0 ≤ i < w - 1 → 0 ≤ j < h - 1 →
          (i + 1) + w * (j + 1) < Z.of_nat (length out)) →
  ∃ out',
    scan temp_of inp w h out = Some out' ∧
    length out' = length out ∧
    (∀ i j, 0 ≤ i < w - 1 → 0 ≤ j < h - 1 →
            out' !! Z.to_nat ((i + 1) + w * (j + 1))
            = Some (MU_8U_of_Z (val i j))) ∧
    (∀ n : nat,
        (∀ i j, 0 ≤ i < w - 1 → 0 ≤ j < h - 1 →
                Z.to_nat ((i + 1) + w * (j + 1)) ≠ n) →
        out' !! n = out !! n).
Proof.
  intros Htemp Hout. rewrite scan_origins.
  assert (Hpos : ∀ i j, inset w (i, j) = (i + 1) + w * (j + 1))
    by (intros; unfold inset; simpl; ring).
  destruct (for_each_store (inset w) (λ o, temp_of inp w (o.1 + w * o.2))
              (origins w h) out) as (out' & Hrun & Hlen & Hframe & Hval).
  { intros [i j] Ho. split.
    - apply elem_of_origins in Ho as [Hi Hj].
      rewrite (Htemp _ _ Hi Hj). eauto.
    - pose proof (inset_inside w h _ Ho).
      apply elem_of_origins in Ho as [Hi Hj].
      specialize (Hout i j Hi Hj). rewrite Hpos. rewrite Hpos in H. lia. }
  exists out'. split; [exact Hrun|]. split; [exact Hlen|]. split.
  - intros i j Hi Hj.
    assert (Ho : (i, j) ∈ origins w h) by (by apply elem_of_origins).
    rewrite <- Hpos, (Hval _ Ho).
    + simpl. rewrite (Htemp _ _ Hi Hj). reflexivity.
    + intros b Hb Hpb. by rewrite (inset_inj w h b (i, j)).
  - intros n Hn. apply Hframe. intros [i j] Ho.
    apply elem_of_origins in Ho as [Hi Hj]. simpl in Hi, Hj.
    rewrite Hpos. by apply Hn.
Qed.

(** A pass that completes computed every value and stored inside the
    destination. *)
Lemma scan_inv temp_of inp w h out out' i j :
  scan temp_of inp w h out = Some out' →
  0 ≤ i < w - 1 → 0 ≤ j < h - 1 →
  is_Some (temp_of inp w (i + w * j)) ∧
  (i + 1) + w * (j + 1) < Z.of_nat (length out).
Proof.
  rewrite scan_origins. intros Hrun Hi Hj.
  destruct (for_each_store_inv (inset w) (λ o, temp_of inp w (o.1 + w * o.2))
              (origins w h) out out' Hrun (i, j)) as [Hsome Hpos].
  { by apply elem_of_origins. }
  split; [exact Hsome|]. unfold inset in Hpos. simpl in Hpos. lia.
Qed.

(** ** One iteration: the value of [temp] *)

Lemma shiftl_1 z : Z.shiftl z 1 = 2 * z.
Proof. rewrite Z.shiftl_mul_pow2 by lia. lia. Qed.

Lemma shiftl_2 z : Z.shiftl z 2 = 4 * z.
Proof. rewrite Z.shiftl_mul_pow2 by lia. lia. Qed.

Lemma shiftl_3 z : Z.shiftl z 3 = 8 * z.
Proof. rewrite Z.shiftl_mul_pow2 by lia. lia. Qed.

Lemma window_range inp w i j dx dy : 0 ≤ window inp w i j dx dy ≤ 255.
Proof. apply pixel_range. Qed.

Lemma load_window inp w i j dx dy k :
  k = (i + dx) + w * (j + dy) →
  0 ≤ k < Z.of_nat (length inp) →
  load inp k = Some (window inp w i j dx dy).
Proof. intros -> Hk. unfold window, pixel_at. by apply load_inside. Qed.

(** The nine pixels of a window are bytes. *)
Ltac window_ranges inp w i j :=
  pose proof (window_range inp w i j 0 0);
  pose proof (window_range inp w i j 1 0);
  pose proof (window_range inp w i j 2 0);
  pose proof (window_range inp w i j 0 1);
  pose proof (window_range inp w i j 1 1);
  pose proof (window_range inp w i j 2 1);
  pose proof (window_range inp w i j 0 2);
  pose proof (window_range inp w i j 1 2);
  pose proof (window_range inp w i j 2 2).

(** Rewrites the read of [k] into the window pixel [(dx, dy)]. *)
Ltac read_window inp w i j dx dy k :=
  rewrite (load_window inp w i j dx dy k) by (ring || lia).

Section Iteration.

Context (inp : list byte) (w i j : Z).
Hypothesis Hw : 1 ≤ w.
Hypothesis Hi : 0 ≤ i.
Hypothesis Hj : 0 ≤ j.

Lemma laplace1_temp_window :
  i + w * j + 2 * w + 1 < Z.of_nat (length inp) →
  laplace1_temp inp w (i + w * j) = Some (laplace4_response (window inp w i j)).
Proof.
  intros Hlen. assert (0 ≤ w * j) by nia.
  unfold laplace1_temp. rewrite shiftl_1.
  read_window inp w i j 1 0 (i + w * j + 1).
  read_window inp w i j 0 1 (i + w * j + w).
  read_window inp w i j 2 1 (i + w * j + w + 2).
  read_window inp w i j 1 2 (i + w * j + 2 * w + 1).
  read_window inp w i j 1 1 (i + w * j + w + 1).
  simpl. rewrite shiftl_2. window_ranges inp w i j.
  f_equal. unfold laplace4_response.
  rewrite MU_16S_of_Z_small by lia.
  destruct (Z.ltb_spec 255
    (Z.abs (window inp w i j 1 0 + window inp w i j 0 1
            + window inp w i j 2 1 + window inp w i j 1 2
            - 4 * window inp w i j 1 1))); lia.
Qed.

Lemma laplace2_temp_window :
  i + w * j + 2 * w + 2 < Z.of_nat (length inp) →
  laplace2_temp inp w (i + w * j) = Some (laplace8_response (window inp w i j)).
Proof.
  intros Hlen. assert (0 ≤ w * j) by nia.
  unfold laplace2_temp. rewrite shiftl_1.
  read_window inp w i j 0 0 (i + w * j).
  read_window inp w i j 1 0 (i + w * j + 1).
  read_window inp w i j 2 0 (i + w * j + 2).
  read_window inp w i j 0 1 (i + w * j + w).
  read_window inp w i j 2 1 (i + w * j + w + 2).
  read_window inp w i j 0 2 (i + w * j + 2 * w).
  read_window inp w i j 1 2 (i + w * j + 2 * w + 1).
  read_window inp w i j 2 2 (i + w * j + 2 * w + 2).
  read_window inp w i j 1 1 (i + w * j + w + 1).
  simpl. rewrite shiftl_3. window_ranges inp w i j.
  f_equal. unfold laplace8_response.
  rewrite MU_16S_of_Z_small by lia.
  destruct (Z.ltb_spec 255
    (Z.abs (window inp w i j 0 0 + window inp w i j 1 0
            + window inp w i j 2 0 + window inp w i j 0 1
            + window inp w i j 2 1 + window inp w i j 0 2
            + window inp w i j 1 2 + window inp w i j 2 2
            - 8 * window inp w i j 1 1))); lia.
Qed.

Lemma sobel_temp_window :
  i + w * j + 2 * w + 2 < Z.of_nat (length inp) →
  sobel_temp inp w (i + w * j) = Some (sobel_response (window inp w i j)).
Proof.
  intros Hlen. assert (0 ≤ w * j) by nia.
  unfold sobel_temp. rewrite shiftl_1.
  read_window inp w i j 0 0 (i + w * j).
  read_window inp w i j 1 0 (i + w * j + 1).
  read_window inp w i j 2 0 (i + w * j + 2).
  read_window inp w i j 0 1 (i + w * j + w).
  read_window inp w i j 2 1 (i + w * j + w + 2).
  read_window inp w i j 0 2 (i + w * j + 2 * w).
  read_window inp w i j 1 2 (i + w * j + 2 * w + 1).
  read_window inp w i j 2 2 (i + w * j + 2 * w + 2).
  simpl. rewrite !shiftl_1. window_ranges inp w i j.
  f_equal. unfold sobel_response, sobel_Gx, sobel_Gy.
  rewrite MU_16S_of_Z_small by lia.
  match goal with |- context [255 <? ?t] => destruct (Z.ltb_spec 255 t) end.
  - simpl. lia.
  - match goal with |- context [?t <? 0] => destruct (Z.ltb_spec t 0) end; lia.
Qed.

Lemma prewitt_temp_window :
  i + w * j + 2 * w + 2 < Z.of_nat (length inp) →
  prewitt_temp inp w (i + w * j) = Some (prewitt_response (window inp w i j)).
Proof.
  intros Hlen. assert (0 ≤ w * j) by nia.
  unfold prewitt_temp. rewrite shiftl_1.
  read_window inp w i j 0 0 (i + w * j).
  read_window inp w i j 1 0 (i + w * j + 1).
  read_window inp w i j 2 0 (i + w * j + 2).
  read_window inp w i j 0 1 (i + w * j + w).
  read_window inp w i j 2 1 (i + w * j + w + 2).
  read_window inp w i j 0 2 (i + w * j + 2 * w).
  read_window inp w i j 1 2 (i + w * j + 2 * w + 1).
  read_window inp w i j 2 2 (i + w * j + 2 * w + 2).
  simpl. window_ranges inp w i j.
  f_equal. unfold prewitt_response, prewitt_Gx, prewitt_Gy.
  rewrite MU_16S_of_Z_small by lia.
  match goal with |- context [255 <? ?t] => destruct (Z.ltb_spec 255 t) end.
  - simpl. lia.
  - match goal with |- context [?t <? 0] => destruct (Z.ltb_spec t 0) end; lia.
Qed.

End Iteration.

(** ** Reads of one iteration *)

(** Every loop body reads the bottom-mid pixel of its window, at
    [index + 2*width + 1]; when that read is outside the buffer the
    iteration faults. *)
Ltac fault_after H :=
  rewrite H;
  repeat match goal with
         | |- context [load ?b ?k] => destruct (load b k); simpl
         end;
  reflexivity.

Lemma laplace1_temp_fault inp w index :
  load inp (index + Z.shiftl w 1 + 1) = None → laplace1_temp inp w index = None.
Proof. intros H. unfold laplace1_temp. fault_after H. Qed.

Lemma laplace2_temp_fault inp w index :
  load inp (index + Z.shiftl w 1 + 1) = None → laplace2_temp inp w index = None.
Proof. intros H. unfold laplace2_temp. fault_after H. Qed.

Lemma sobel_temp_fault inp w index :
  load inp (index + Z.shiftl w 1 + 1) = None → sobel_temp inp w index = None.
Proof. intros H. unfold sobel_temp. fault_after H. Qed.

Lemma prewitt_temp_fault inp w index :
  load inp (index + Z.shiftl w 1 + 1) = None → prewitt_temp inp w index = None.
Proof. intros H. unfold prewitt_temp. fault_after H. Qed.

Lemma scan_fault temp_of inp w h out i j :
  0 ≤ i < w - 1 → 0 ≤ j < h - 1 →
  temp_of inp w (i + w * j) = None →
  scan temp_of inp w h out = None.
Proof.
  intros Hi Hj Hf. rewrite scan_origins.
  apply (for_each_fault _ _ (i, j)).
  - by apply elem_of_origins.
  - intros t. simpl. by rewrite Hf.
Qed.

(** An iteration that computes a value has read its window up to the
    bottom-mid pixel, and up to the bottom-right one except for selector 1
    of [muLaplace]. *)
Lemma laplace1_temp_reads inp w index t :
  laplace1_temp inp w index = Some t →
  index + 2 * w + 1 < Z.of_nat (length inp).
Proof.
  intros H. destruct (load inp (index + Z.shiftl w 1 + 1)) as [v|] eqn:E.
  - apply mk_is_Some, load_is_Some in E. rewrite shiftl_1 in E. lia.
  - by rewrite laplace1_temp_fault in H.
Qed.

Ltac reads_last H :=
  match type of H with
  | ?f ?inp ?w ?index = Some _ =>
      destruct (load inp (index + Z.shiftl w 1 + 2)) as [v|] eqn:E;
      [ apply mk_is_Some, load_is_Some in E; rewrite shiftl_1 in E; lia
      | exfalso; unfold f in H; rewrite E in H; revert H;
        repeat match goal with
               | |- context [load ?b ?k] => destruct (load b k); simpl
               end;
        discriminate ]
  end.

Lemma laplace2_temp_reads inp w index t :
  laplace2_temp inp w index = Some t →
  index + 2 * w + 2 < Z.of_nat (length inp).
Proof. intros H. reads_last H. Qed.

Lemma sobel_temp_reads inp w index t :
  sobel_temp inp w index = Some t →
  index + 2 * w + 2 < Z.of_nat (length inp).
Proof. intros H. reads_last H. Qed.

Lemma prewitt_temp_reads inp w index t :
  prewitt_temp inp w index = Some t →
  index + 2 * w + 2 < Z.of_nat (length inp).
Proof. intros H. reads_last H. Qed.

(** ** A whole pass *)

Lemma laplace4_response_range p : 0 ≤ laplace4_response p ≤ 255.
Proof. unfold laplace4_response. lia. Qed.

Lemma laplace8_response_range p : 0 ≤ laplace8_response p ≤ 255.
Proof. unfold laplace8_response. lia. Qed.

Lemma sobel_response_range p : 0 ≤ sobel_response p ≤ 255.
Proof. unfold sobel_response. lia. Qed.

Lemma prewitt_response_range p : 0 ≤ prewitt_response p ≤ 255.
Proof. unfold prewitt_response. lia. Qed.

Section Pass.

(** A loop body [temp_of] that reads its window up to offset
    [index + 2*w + reach] and computes the response [resp] of the window,
    and an operator [op] that runs it after the checks. *)
Context (temp_of : list byte → Z → Z → option Z).
Context (resp : (Z → Z → Z) → Z) (reach : Z).
Context (op : muImage_t → muImage_t → option (muError_t * list byte)).

Hypothesis reach_le : reach ≤ 2.

Hypothesis temp_total : ∀ inp w i j,
  1 ≤ w → 0 ≤ i → 0 ≤ j →
  i + w * j + 2 * w + reach < Z.of_nat (length inp) →
  temp_of inp w (i + w * j) = Some (resp (window inp w i j)).

Hypothesis temp_reads : ∀ inp w index t,
  temp_of inp w index = Some t →
  index + 2 * w + reach < Z.of_nat (length inp).

Hypothesis resp_range : ∀ p, 0 ≤ resp p ≤ 255.

Hypothesis op_unfold : ∀ src dst,
  op src dst =
  match check_images src dst with
  | Some ret => Some (ret, imagedata dst)
  | None =>
      out ← scan temp_of (imagedata src) (width src) (height src)
              (imagedata dst);
      Some (MU_ERR_SUCCESS, out)
  end.

Lemma pass_outcome inp w h out :
  (∀ i j, 0 ≤ i < w - 1 → 0 ≤ j < h - 1 →
          i + w * j + 2 * w + reach < Z.of_nat (length inp) ∧
          (i + 1) + w * (j + 1) < Z.of_nat (length out)) →
  ∃ out', scan temp_of inp w h out = Some out' ∧
          pass_result resp inp w h out out'.
Proof.
  intros Hin.
  destruct (scan_run temp_of inp w h out (λ i j, resp (window inp w i j)))
    as (out' & Hrun & Hlen & Hval & Hframe).
  { intros i j Hi Hj. apply temp_total; try lia. by apply Hin. }
  { intros i j Hi Hj. by apply Hin. }
  exists out'. split; [exact Hrun|]. split; [exact Hlen|].
  split; [|exact Hframe].
  intros i j Hi Hj.
  assert (Hk : 0 ≤ (i + 1) + w * (j + 1)) by nia.
  rewrite (load_lookup out' _ _ Hk (Hval i j Hi Hj)).
  by rewrite Z_of_MU_8U_of_Z.
Qed.

(** The last read of the last window origin is at most at offset
    [w*h + w]: a source buffer that reaches that far and a destination
    that holds the raster let the pass complete. *)
Lemma pass_total inp w h out :
  w * h + w < Z.of_nat (length inp) →
  w * h ≤ Z.of_nat (length out) →
  ∃ out', scan temp_of inp w h out = Some out' ∧
          pass_result resp inp w h out out'.
Proof.
  intros Hinp Hout. apply pass_outcome. intros i j Hi Hj.
  assert (w * (j + 2) ≤ w * h) by (apply Z.mul_le_mono_nonneg_l; lia).
  lia.
Qed.

(** Whenever the pass completes, its outcome is the one described. *)
Lemma pass_correct inp w h out out' :
  scan temp_of inp w h out = Some out' → pass_result resp inp w h out out'.
Proof.
  intros Hrun.
  destruct (pass_outcome inp w h out) as (out'' & Hrun' & Hres).
  { intros i j Hi Hj.
    destruct (scan_inv _ _ _ _ _ _ i j Hrun Hi Hj) as [[t Ht] Hpos].
    split; [|exact Hpos]. by apply (temp_reads _ _ _ t). }
  congruence.
Qed.

Lemma operator_total src dst :
  valid_pair src dst →
  width src * height src + width src < Z.of_nat (length (imagedata src)) →
  width src * height src ≤ Z.of_nat (length (imagedata dst)) →
  ∃ out',
    op src dst = Some (MU_ERR_SUCCESS, out') ∧
    pass_result resp (imagedata src) (width src) (height src)
      (imagedata dst) out'.
Proof.
  intros Hv Hinp Hout.
  destruct (pass_total _ _ _ _ Hinp Hout) as (out' & Hrun & Hres).
  exists out'. split; [|exact Hres].
  rewrite op_unfold, check_images_valid by done.
  rewrite Hrun. reflexivity.
Qed.

Lemma operator_correct src dst status out' :
  valid_pair src dst →
  op src dst = Some (status, out') →
  status = MU_ERR_SUCCESS ∧
  pass_result resp (imagedata src) (width src) (height src)
    (imagedata dst) out'.
Proof.
  intros Hv. rewrite op_unfold, check_images_valid by done.
  destruct (scan temp_of _ _ _ _) as [out''|] eqn:Hrun; simpl; [|done].
  intros [= <- <-]. split; [reflexivity|]. by apply pass_correct.
Qed.

End Pass.

(** The four software paths as instances. *)

Lemma muLaplace1_unfold src dst :
  muLaplace src dst x01 =
  match check_images src dst with
  | Some ret => Some (ret, imagedata dst)
  | None =>
      out ← scan laplace1_temp (imagedata src) (width src) (height src)
              (imagedata dst);
      Some (MU_ERR_SUCCESS, out)
  end.
Proof. apply muLaplace_unfold. Qed.

Lemma muLaplace2_unfold src dst :
  muLaplace src dst x02 =
  match check_images src dst with
  | Some ret => Some (ret, imagedata dst)
  | None =>
      out ← scan laplace2_temp (imagedata src) (width src) (height src)
              (imagedata dst);
      Some (MU_ERR_SUCCESS, out)
  end.
Proof. apply muLaplace_unfold. Qed.

Lemma laplace1_temp_total inp w i j :
  1 ≤ w → 0 ≤ i → 0 ≤ j →
  i + w * j + 2 * w + 1 < Z.of_nat (length inp) →
  laplace1_temp inp w (i + w * j) = Some (laplace4_response (window inp w i j)).
Proof. intros. by apply laplace1_temp_window. Qed.

Lemma muLaplace1_total src dst :
  valid_pair src dst →
  width src * height src + width src < Z.of_nat (length (imagedata src)) →
  width src * height src ≤ Z.of_nat (length (imagedata dst)) →
  ∃ out',
    muLaplace src dst x01 = Some (MU_ERR_SUCCESS, out') ∧
    pass_result laplace4_response (imagedata src) (width src) (height src)
      (imagedata dst) out'.
Proof.
  apply (operator_total laplace1_temp laplace4_response 1
           (λ src dst, muLaplace src dst x01));
    [lia | apply laplace1_temp_total | apply laplace4_response_range
    | apply muLaplace1_unfold].
Qed.

Lemma muLaplace1_correct src dst status out' :
  valid_pair src dst →
  muLaplace src dst x01 = Some (status, out') →
  status = MU_ERR_SUCCESS ∧
  pass_result laplace4_response (imagedata src) (width src) (height src)
    (imagedata dst) out'.
Proof.
  apply (operator_correct laplace1_temp laplace4_response 1
           (λ src dst, muLaplace src dst x01));
    [apply laplace1_temp_total | apply laplace1_temp_reads
    | apply laplace4_response_range | apply muLaplace1_unfold].
Qed.

Lemma muLaplace2_total src dst :
  valid_pair src dst →
  width src * height src + width src < Z.of_nat (length (imagedata src)) →
  width src * height src ≤ Z.of_nat (length (imagedata dst)) →
  ∃ out',
    muLaplace src dst x02 = Some (MU_ERR_SUCCESS, out') ∧
    pass_result laplace8_response (imagedata src) (width src) (height src)
      (imagedata dst) out'.
Proof.
  apply (operator_total laplace2_temp laplace8_response 2
           (λ src dst, muLaplace src dst x02));
    [lia | intros; by apply laplace2_temp_window
    | apply laplace8_response_range | apply muLaplace2_unfold].
Qed.

Lemma muLaplace2_correct src dst status out' :
  valid_pair src dst →
  muLaplace src dst x02 = Some (status, out') →
  status = MU_ERR_SUCCESS ∧
  pass_result laplace8_response (imagedata src) (width src) (height src)
    (imagedata dst) out'.
Proof.
  apply (operator_correct laplace2_temp laplace8_response 2
           (λ src dst, muLaplace src dst x02));
    [intros; by apply laplace2_temp_window | apply laplace2_temp_reads
    | apply laplace8_response_range | apply muLaplace2_unfold].
Qed.

Lemma muSobel_total src dst :
  valid_pair src dst →
  width src * height src + width src < Z.of_nat (length (imagedata src)) →
  width src * height src ≤ Z.of_nat (length (imagedata dst)) →
  ∃ out',
    muSobel src dst = Some (MU_ERR_SUCCESS, out') ∧
    pass_result sobel_response (imagedata src) (width src) (height src)
      (imagedata dst) out'.
Proof.
  apply (operator_total sobel_temp sobel_response 2 muSobel);
    [lia | intros; by apply sobel_temp_window
    | apply sobel_response_range | apply muSobel_unfold].
Qed.

Lemma muSobel_correct src dst status out' :
  valid_pair src dst →
  muSobel src dst = Some (status, out') →
  status = MU_ERR_SUCCESS ∧
  pass_result sobel_response (imagedata src) (width src) (height src)
    (imagedata dst) out'.
Proof.
  apply (operator_correct sobel_temp sobel_response 2 muSobel);
    [intros; by apply sobel_temp_window | apply sobel_temp_reads
    | apply sobel_response_range | apply muSobel_unfold].
Qed.

Lemma muPrewitt_total src dst :
  valid_pair src dst →
  width src * height src + width src < Z.of_nat (length (imagedata src)) →
  width src * height src ≤ Z.of_nat (length (imagedata dst)) →
  ∃ out',
    muPrewitt src dst = Some (MU_ERR_SUCCESS, out') ∧
    pass_result prewitt_response (imagedata src) (width src) (height src)
      (imagedata dst) out'.
Proof.
  apply (operator_total prewitt_temp prewitt_response 2 muPrewitt);
    [lia | intros; by apply prewitt_temp_window
    | apply prewitt_response_range | apply muPrewitt_unfold].
Qed.

Lemma muPrewitt_correct src dst status out' :
  valid_pair src dst →
  muPrewitt src dst = Some (status, out') →
  status = MU_ERR_SUCCESS ∧
  pass_result prewitt_response (imagedata src) (width src) (height src)
    (imagedata dst) out'.
Proof.
  apply (operator_correct prewitt_temp prewitt_response 2 muPrewitt);
    [intros; by apply prewitt_temp_window | apply prewitt_temp_reads
    | apply prewitt_response_range | apply muPrewitt_unfold].
Qed.

(** ** Properties of the operators *)

Lemma Z_of_MU_8U_eq b z :
  Z_of_MU_8U b = z → Byte.of_N (Z.to_N z) = Some b.
Proof.
  intros <-. unfold Z_of_MU_8U. rewrite N2Z.id. apply Byte.of_to_N.
Qed.

(** C7: for every source, destination and angle image whatsoever, muCanny
    returns the success status, and the destination buffer and the angle
    buffer are byte for byte what they were before the call. *)
Theorem muCanny_returns_success_and_writes_nothing src dst ang :
  muCanny src dst ang = (MU_ERR_SUCCESS, imagedata dst, imagedata ang).
Proof. reflexivity. Qed.

(** C8: for every pair of images that passes validation and every mask
    selector other than 1 and 2, muLaplace returns the success status and
    every byte of the destination buffer is unchanged. *)
Theorem muLaplace_unknown_selector_is_noop src dst selection :
  valid_pair src dst →
  selection ≠ x01 → selection ≠ x02 →
  muLaplace src dst selection = Some (MU_ERR_SUCCESS, imagedata dst).
Proof.
  intros Hv H1 H2. rewrite muLaplace_unfold, check_images_valid by done.
  destruct (Z_of_MU_8U selection) as [|[p|[q|q|]|]|p] eqn:E;
    try reflexivity; apply Z_of_MU_8U_eq in E; simpl in E; congruence.
Qed.

Lemma muLaplace_unknown_selector_is_noop_witness :
  valid_pair sample_src sample_dst ∧ x03 ≠ x01 ∧ x03 ≠ x02 ∧
  muLaplace sample_src sample_dst x03
  = Some (MU_ERR_SUCCESS, imagedata sample_dst).
Proof.
  assert (Hv : valid_pair sample_src sample_dst) by (repeat split).
  assert (H1 : x03 ≠ x01) by discriminate.
  assert (H2 : x03 ≠ x02) by discriminate.
  exact (conj Hv (conj H1 (conj H2
    (muLaplace_unknown_selector_is_noop sample_src sample_dst x03 Hv H1 H2)))).
Defined.

(** C10: for every pair of images that passes validation and whose source
    has width 1 or height 1, muLaplace (with any selector), muSobel and
    muPrewitt return the success status and leave every byte of the
    destination buffer unchanged: there is no window origin to visit. *)
Theorem single_row_or_column_is_noop src dst selection :
  valid_pair src dst →
  width src = 1 ∨ height src = 1 →
  muLaplace src dst selection = Some (MU_ERR_SUCCESS, imagedata dst) ∧
  muSobel src dst = Some (MU_ERR_SUCCESS, imagedata dst) ∧
  muPrewitt src dst = Some (MU_ERR_SUCCESS, imagedata dst).
Proof.
  intros Hv Hwh.
  assert (Hno : width src ≤ 1 ∨ height src ≤ 1) by lia.
  rewrite muLaplace_unfold, muSobel_unfold, muPrewitt_unfold.
  rewrite check_images_valid by done.
  rewrite !scan_no_origin by done.
  repeat split.
  destruct (Z_of_MU_8U selection) as [|[p|[q|q|]|]|p]; reflexivity.
Qed.

Lemma single_row_or_column_is_noop_witness :
  valid_pair sample_row sample_dst ∧
  (width sample_row = 1 ∨ height sample_row = 1) ∧
  muLaplace sample_row sample_dst x02
  = Some (MU_ERR_SUCCESS, imagedata sample_dst) ∧
  muSobel sample_row sample_dst = Some (MU_ERR_SUCCESS, imagedata sample_dst) ∧
  muPrewitt sample_row sample_dst
  = Some (MU_ERR_SUCCESS, imagedata sample_dst).
Proof.
  assert (Hv : valid_pair sample_row sample_dst) by (repeat split).
  assert (Hwh : width sample_row = 1 ∨ height sample_row = 1)
    by (right; reflexivity).
  exact (conj Hv (conj Hwh
    (single_row_or_column_is_noop sample_row sample_dst x02 Hv Hwh))).
Defined.

(** C3, as the code has it: when the source or the destination is not
    declared 8-bit unsigned, muLaplace, muSobel and muPrewitt return
    DepthMismatch; when both depths are right and the source or the
    destination does not have exactly one channel, they return
    ChannelUnsupported ([MU_ERR_NOT_SUPPORT]); in both cases the destination
    buffer is unchanged.  muCanny performs no check: on the same images it
    returns the success status, and writes nothing either. *)
Theorem rejected_images_are_not_written src dst ang selection :
  depth src ≠ MU_IMG_DEPTH_8U ∨ depth dst ≠ MU_IMG_DEPTH_8U ∨
  channels src ≠ 1 ∨ channels dst ≠ 1 →
  let status :=
    if muDepth_eqb (depth src) MU_IMG_DEPTH_8U
       && muDepth_eqb (depth dst) MU_IMG_DEPTH_8U
    then MU_ERR_NOT_SUPPORT else DepthMismatch in
  muLaplace src dst selection = Some (status, imagedata dst) ∧
  muSobel src dst = Some (status, imagedata dst) ∧
  muPrewitt src dst = Some (status, imagedata dst) ∧
  muCanny src dst ang = (MU_ERR_SUCCESS, imagedata dst, imagedata ang).
Proof.
  intros Hbad status.
  rewrite muLaplace_unfold, muSobel_unfold, muPrewitt_unfold.
  assert (Hc : check_images src dst = Some status).
  { unfold status.
    destruct (muDepth_eqb (depth src) MU_IMG_DEPTH_8U) eqn:Es;
      [destruct (muDepth_eqb (depth dst) MU_IMG_DEPTH_8U) eqn:Ed|]; simpl.
    - apply muDepth_eqb_eq in Es, Ed.
      apply check_images_channels; try done.
      destruct Hbad as [?|[?|[?|?]]]; try done; [by left | by right].
    - apply check_images_depth. right. by apply muDepth_eqb_neq.
    - apply check_images_depth. left. by apply muDepth_eqb_neq. }
  rewrite Hc. repeat split.
Qed.

Lemma rejected_images_are_not_written_witness :
  (depth sample_src_depth16 ≠ MU_IMG_DEPTH_8U ∨
   depth sample_dst ≠ MU_IMG_DEPTH_8U ∨
   channels sample_src_depth16 ≠ 1 ∨ channels sample_dst ≠ 1) ∧
  muLaplace sample_src_depth16 sample_dst x01
  = Some (DepthMismatch, imagedata sample_dst) ∧
  muSobel sample_src_depth16 sample_dst
  = Some (DepthMismatch, imagedata sample_dst) ∧
  muPrewitt sample_src_depth16 sample_dst
  = Some (DepthMismatch, imagedata sample_dst) ∧
  muCanny sample_src_depth16 sample_dst sample_ang
  = (MU_ERR_SUCCESS, imagedata sample_dst, imagedata sample_ang).
Proof.
  assert (Hbad : depth sample_src_depth16 ≠ MU_IMG_DEPTH_8U ∨
                 depth sample_dst ≠ MU_IMG_DEPTH_8U ∨
                 channels sample_src_depth16 ≠ 1 ∨ channels sample_dst ≠ 1)
    by (left; discriminate).
  exact (conj Hbad
    (rejected_images_are_not_written sample_src_depth16 sample_dst
       sample_ang x01 Hbad)).
Defined.

(** C3 as stated fails on muCanny: on a source that is not 8-bit unsigned
    it does not return DepthMismatch, and on a three-channel source it does
    not return ChannelUnsupported; it returns the success status. *)
Lemma muCanny_does_not_reject :
  depth sample_src_depth16 ≠ MU_IMG_DEPTH_8U ∧
  (muCanny sample_src_depth16 sample_dst sample_ang).1.1 ≠ DepthMismatch ∧
  channels sample_src_rgb ≠ 1 ∧
  (muCanny sample_src_rgb sample_dst sample_ang).1.1 ≠ MU_ERR_NOT_SUPPORT.
Proof. repeat split; discriminate. Qed.

(** C5: on every pair of images that passes validation, whenever muSobel
    completes it returns the success status and, for every window origin
    (i, j) of the loops, the byte one row and one column inset from the
    origin, at offset (i+1) + W*(j+1), holds min(255, |Gx| + |Gy|), where
    Gx is (top-left + 2 top-mid + top-right) - (bottom-left + 2 bottom-mid
    + bottom-right) and Gy is (top-left + 2 mid-left + bottom-left) -
    (top-right + 2 mid-right + bottom-right) over the 3x3 neighbourhood
    anchored at (i, j); no other byte of the destination changes.  It
    completes when the source buffer reaches offset W*H + W, the last
    offset the loops read, and the destination holds the W x H raster. *)
Theorem muSobel_writes_clamped_gradient src dst :
  valid_pair src dst →
  (width src * height src + width src < Z.of_nat (length (imagedata src)) →
   width src * height src ≤ Z.of_nat (length (imagedata dst)) →
   is_Some (muSobel src dst)) ∧
  (∀ status out',
     muSobel src dst = Some (status, out') →
     status = MU_ERR_SUCCESS ∧
     (∀ i j, 0 ≤ i < width src - 1 → 0 ≤ j < height src - 1 →
        let p := window (imagedata src) (width src) i j in
        let Gx := (p 0 0 + 2 * p 1 0 + p 2 0) - (p 0 2 + 2 * p 1 2 + p 2 2) in
        let Gy := (p 0 0 + 2 * p 0 1 + p 0 2) - (p 2 0 + 2 * p 2 1 + p 2 2) in
        load out' ((i + 1) + width src * (j + 1))
        = Some (Z.min 255 (Z.abs Gx + Z.abs Gy))) ∧
     (∀ n : nat,
        (∀ i j, 0 ≤ i < width src - 1 → 0 ≤ j < height src - 1 →
                Z.to_nat ((i + 1) + width src * (j + 1)) ≠ n) →
        out' !! n = imagedata dst !! n)).
Proof.
  intros Hv. split.
  - intros Hinp Hout.
    destruct (muSobel_total src dst Hv Hinp Hout) as (out' & Hrun & _).
    rewrite Hrun. eauto.
  - intros status out' Hrun.
    destruct (muSobel_correct src dst status out' Hv Hrun)
      as (Hs & _ & Hval & Hframe).
    split; [exact Hs|]. split; [|exact Hframe].
    intros i j Hi Hj. simpl. exact (Hval i j Hi Hj).
Qed.

Lemma muSobel_writes_clamped_gradient_witness :
  valid_pair sample_src sample_dst ∧
  ∃ out',
    muSobel sample_src sample_dst = Some (MU_ERR_SUCCESS, out') ∧
    ∀ i j, 0 ≤ i < width sample_src - 1 → 0 ≤ j < height sample_src - 1 →
      let p := window (imagedata sample_src) (width sample_src) i j in
      let Gx := (p 0 0 + 2 * p 1 0 + p 2 0) - (p 0 2 + 2 * p 1 2 + p 2 2) in
      let Gy := (p 0 0 + 2 * p 0 1 + p 0 2) - (p 2 0 + 2 * p 2 1 + p 2 2) in
      load out' ((i + 1) + width sample_src * (j + 1))
      = Some (Z.min 255 (Z.abs Gx + Z.abs Gy)).
Proof.
  assert (Hv : valid_pair sample_src sample_dst) by (repeat split).
  split; [exact Hv|].
  destruct (muSobel_writes_clamped_gradient sample_src sample_dst Hv)
    as [Htotal Hcorrect].
  destruct Htotal as [[status out'] Hrun]; [simpl; lia | simpl; lia |].
  destruct (Hcorrect status out' Hrun) as (-> & Hval & _).
  exists out'. split; [exact Hrun | exact Hval].
Defined.

(** C6: on every pair of images that passes validation, whenever muLaplace
    completes it returns the success status and, for every window origin
    (i, j) of the loops, the byte at the inset centre (i+1) + W*(j+1)
    holds, with selector 1, min(255, |N + S + E + W - 4 C|) for the four
    axis-aligned neighbours of the centre pixel C, and with selector 2,
    min(255, |sum of the eight neighbours - 8 C|); the value written is
    between 0 and 255 (saturated, not wrapped).  It completes when the
    source buffer reaches offset W*H + W and the destination holds the
    W x H raster. *)
Theorem muLaplace_writes_clamped_response src dst :
  valid_pair src dst →
  (width src * height src + width src < Z.of_nat (length (imagedata src)) →
   width src * height src ≤ Z.of_nat (length (imagedata dst)) →
   is_Some (muLaplace src dst x01) ∧ is_Some (muLaplace src dst x02)) ∧
  (∀ status out',
     muLaplace src dst x01 = Some (status, out') →
     status = MU_ERR_SUCCESS ∧
     ∀ i j, 0 ≤ i < width src - 1 → 0 ≤ j < height src - 1 →
       let p := window (imagedata src) (width src) i j in
       let r := Z.min 255 (Z.abs (p 1 0 + p 1 2 + p 2 1 + p 0 1 - 4 * p 1 1)) in
       load out' ((i + 1) + width src * (j + 1)) = Some r ∧ 0 ≤ r ≤ 255) ∧
  (∀ status out',
     muLaplace src dst x02 = Some (status, out') →
     status = MU_ERR_SUCCESS ∧
     ∀ i j, 0 ≤ i < width src - 1 → 0 ≤ j < height src - 1 →
       let p := window (imagedata src) (width src) i j in
       let r :=
         Z.min 255
           (Z.abs (p 0 0 + p 1 0 + p 2 0 + p 0 1 + p 2 1 + p 0 2 + p 1 2
                   + p 2 2 - 8 * p 1 1)) in
       load out' ((i + 1) + width src * (j + 1)) = Some r ∧ 0 ≤ r ≤ 255).
Proof.
  intros Hv. split; [|split].
  - intros Hinp Hout.
    destruct (muLaplace1_total src dst Hv Hinp Hout) as (out1 & Hrun1 & _).
    destruct (muLaplace2_total src dst Hv Hinp Hout) as (out2 & Hrun2 & _).
    rewrite Hrun1, Hrun2. eauto.
  - intros status out' Hrun.
    destruct (muLaplace1_correct src dst status out' Hv Hrun)
      as (Hs & _ & Hval & _).
    split; [exact Hs|].
    intros i j Hi Hj. simpl. split; [exact (Hval i j Hi Hj) | lia].
  - intros status out' Hrun.
    destruct (muLaplace2_correct src dst status out' Hv Hrun)
      as (Hs & _ & Hval & _).
    split; [exact Hs|].
    intros i j Hi Hj. simpl. split; [exact (Hval i j Hi Hj) | lia].
Qed.

Lemma muLaplace_writes_clamped_response_witness :
  valid_pair sample_src sample_dst ∧
  (∃ out',
     muLaplace sample_src sample_dst x01 = Some (MU_ERR_SUCCESS, out') ∧
     ∀ i j, 0 ≤ i < width sample_src - 1 → 0 ≤ j < height sample_src - 1 →
       let p := window (imagedata sample_src) (width sample_src) i j in
       let r := Z.min 255 (Z.abs (p 1 0 + p 1 2 + p 2 1 + p 0 1 - 4 * p 1 1)) in
       load out' ((i + 1) + width sample_src * (j + 1)) = Some r
       ∧ 0 ≤ r ≤ 255) ∧
  (∃ out',
     muLaplace sample_src sample_dst x02 = Some (MU_ERR_SUCCESS, out') ∧
     ∀ i j, 0 ≤ i < width sample_src - 1 → 0 ≤ j < height sample_src - 1 →
       let p := window (imagedata sample_src) (width sample_src) i j in
       let r :=
         Z.min 255
           (Z.abs (p 0 0 + p 1 0 + p 2 0 + p 0 1 + p 2 1 + p 0 2 + p 1 2
                   + p 2 2 - 8 * p 1 1)) in
       load out' ((i + 1) + width sample_src * (j + 1)) = Some r
       ∧ 0 ≤ r ≤ 255).
Proof.
  assert (Hv : valid_pair sample_src sample_dst) by (repeat split).
  split; [exact Hv|].
  destruct (muLaplace_writes_clamped_response sample_src sample_dst Hv)
    as (Htotal & Hcorrect1 & Hcorrect2).
  destruct Htotal as [[[status1 out1] Hrun1] [[status2 out2] Hrun2]];
    [simpl; lia | simpl; lia |].
  destruct (Hcorrect1 status1 out1 Hrun1) as (-> & Hval1).
  destruct (Hcorrect2 status2 out2 Hrun2) as (-> & Hval2).
  split; [exists out1 | exists out2]; split; assumption.
Defined.

Lemma uniform_window inp w h c x y dx dy :
  (∀ x y, 0 ≤ x < w → 0 ≤ y < h → pixel_at inp w x y = c) →
  1 ≤ x ≤ w - 2 → 1 ≤ y ≤ h - 2 → 0 ≤ dx ≤ 2 → 0 ≤ dy ≤ 2 →
  window inp w (x - 1) (y - 1) dx dy = c.
Proof. intros Hc Hx Hy Hdx Hdy. unfold window. apply Hc; lia. Qed.

(** On a uniform raster the response of every window inside the raster is
    0, so a pass leaves 0 at every interior pixel. *)
Lemma uniform_pass_result resp inp w h c out out' :
  (∀ x y, 0 ≤ x < w → 0 ≤ y < h → pixel_at inp w x y = c) →
  (∀ p, (∀ dx dy, 0 ≤ dx ≤ 2 → 0 ≤ dy ≤ 2 → p dx dy = c) → resp p = 0) →
  pass_result resp inp w h out out' →
  ∀ x y, 1 ≤ x ≤ w - 2 → 1 ≤ y ≤ h - 2 → load out' (x + w * y) = Some 0.
Proof.
  intros Hc Hresp (_ & Hval & _) x y Hx Hy.
  replace (x + w * y) with ((x - 1 + 1) + w * (y - 1 + 1))
    by (f_equal; [lia | f_equal; lia]).
  rewrite Hval by lia. f_equal. apply Hresp.
  intros dx dy Hdx Hdy. by apply (uniform_window inp w h).
Qed.

Lemma laplace4_response_uniform p c :
  (∀ dx dy, 0 ≤ dx ≤ 2 → 0 ≤ dy ≤ 2 → p dx dy = c) → laplace4_response p = 0.
Proof. intros H. unfold laplace4_response. rewrite !H by lia. lia. Qed.

Lemma laplace8_response_uniform p c :
  (∀ dx dy, 0 ≤ dx ≤ 2 → 0 ≤ dy ≤ 2 → p dx dy = c) → laplace8_response p = 0.
Proof. intros H. unfold laplace8_response. rewrite !H by lia. lia. Qed.

Lemma sobel_response_uniform p c :
  (∀ dx dy, 0 ≤ dx ≤ 2 → 0 ≤ dy ≤ 2 → p dx dy = c) → sobel_response p = 0.
Proof.
  intros H. unfold sobel_response, sobel_Gx, sobel_Gy. rewrite !H by lia. lia.
Qed.

Lemma prewitt_response_uniform p c :
  (∀ dx dy, 0 ≤ dx ≤ 2 → 0 ≤ dy ≤ 2 → p dx dy = c) → prewitt_response p = 0.
Proof.
  intros H. unfold prewitt_response, prewitt_Gx, prewitt_Gy.
  rewrite !H by lia. lia.
Qed.

(** C9: on every pair of images that passes validation and whose source
    holds one value c in all its W x H pixels, whenever muLaplace (with
    selector 1 or 2), muSobel or muPrewitt completes, it returns the
    success status and leaves 0 at every interior pixel, that is at every
    (x, y) whose 3x3 neighbourhood lies within the image.  Each of them
    completes when the source buffer reaches offset W*H + W (whatever the
    bytes past the raster) and the destination holds the raster. *)
Theorem uniform_image_has_zero_response src dst c :
  valid_pair src dst →
  (∀ x y, 0 ≤ x < width src → 0 ≤ y < height src →
          pixel_at (imagedata src) (width src) x y = c) →
  (width src * height src + width src < Z.of_nat (length (imagedata src)) →
   width src * height src ≤ Z.of_nat (length (imagedata dst)) →
   ∀ r, r ∈ software_paths src dst → is_Some r) ∧
  (∀ r status out',
     r ∈ software_paths src dst → r = Some (status, out') →
     status = MU_ERR_SUCCESS ∧
     ∀ x y, 1 ≤ x ≤ width src - 2 → 1 ≤ y ≤ height src - 2 →
            load out' (x + width src * y) = Some 0).
Proof.
  intros Hv Hc. unfold software_paths. split.
  - intros Hinp Hout r Hr.
    destruct (muLaplace1_total src dst Hv Hinp Hout) as (out1 & Hrun1 & _).
    destruct (muLaplace2_total src dst Hv Hinp Hout) as (out2 & Hrun2 & _).
    destruct (muSobel_total src dst Hv Hinp Hout) as (out3 & Hrun3 & _).
    destruct (muPrewitt_total src dst Hv Hinp Hout) as (out4 & Hrun4 & _).
    rewrite Hrun1, Hrun2, Hrun3, Hrun4 in Hr.
    repeat (apply elem_of_cons in Hr as [->|Hr]; [eauto|]).
    by apply elem_of_nil in Hr.
  - intros r status out' Hr Hrun. subst r.
    apply elem_of_cons in Hr as [Hr|Hr];
      [|apply elem_of_cons in Hr as [Hr|Hr];
        [|apply elem_of_cons in Hr as [Hr|Hr];
          [|apply elem_of_cons in Hr as [Hr|Hr];
            [|by apply elem_of_nil in Hr]]]];
      symmetry in Hr.
    + destruct (muLaplace1_correct src dst status out' Hv Hr) as [Hs Hres].
      split; [exact Hs|].
      apply (uniform_pass_result _ _ _ _ c _ _ Hc
               (λ p, laplace4_response_uniform p c) Hres).
    + destruct (muLaplace2_correct src dst status out' Hv Hr) as [Hs Hres].
      split; [exact Hs|].
      apply (uniform_pass_result _ _ _ _ c _ _ Hc
               (λ p, laplace8_response_uniform p c) Hres).
    + destruct (muSobel_correct src dst status out' Hv Hr) as [Hs Hres].
      split; [exact Hs|].
      apply (uniform_pass_result _ _ _ _ c _ _ Hc
               (λ p, sobel_response_uniform p c) Hres).
    + destruct (muPrewitt_correct src dst status out' Hv Hr) as [Hs Hres].
      split; [exact Hs|].
      apply (uniform_pass_result _ _ _ _ c _ _ Hc
               (λ p, prewitt_response_uniform p c) Hres).
Qed.

Lemma uniform_image_has_zero_response_witness :
  valid_pair sample_uniform sample_dst ∧
  (∀ x y, 0 ≤ x < width sample_uniform → 0 ≤ y < height sample_uniform →
          pixel_at (imagedata sample_uniform) (width sample_uniform) x y
          = 80) ∧
  ∀ r, r ∈ software_paths sample_uniform sample_dst →
    ∃ out', r = Some (MU_ERR_SUCCESS, out') ∧
      ∀ x y, 1 ≤ x ≤ width sample_uniform - 2 →
             1 ≤ y ≤ height sample_uniform - 2 →
             load out' (x + width sample_uniform * y) = Some 0.
Proof.
  assert (Hv : valid_pair sample_uniform sample_dst) by (repeat split).
  assert (Hc : ∀ x y, 0 ≤ x < width sample_uniform →
                      0 ≤ y < height sample_uniform →
                      pixel_at (imagedata sample_uniform)
                        (width sample_uniform) x y = 80).
  { simpl. intros x y Hx Hy.
    assert (Ex : x = 0 ∨ x = 1 ∨ x = 2) by lia.
    assert (Ey : y = 0 ∨ y = 1 ∨ y = 2) by lia.
    destruct Ex as [->|[->| ->]], Ey as [->|[->| ->]]; reflexivity. }
  split; [exact Hv|]. split; [exact Hc|].
  destruct (uniform_image_has_zero_response sample_uniform sample_dst 80
              Hv Hc) as [Htotal Hcorrect].
  intros r Hr.
  destruct (Htotal ltac:(simpl; lia) ltac:(simpl; lia) r Hr)
    as [[status out'] Hrun].
  destruct (Hcorrect r status out' Hr Hrun) as [-> Hzero].
  exists out'. split; [exact Hrun | exact Hzero].
Defined.

(** ** Reads past the raster *)

(** C1 fails on the code.  For every pair of images that passes validation,
    of width and height at least 2, whose source buffer has exactly W*H
    bytes, the window origin (W-2, H-2) is visited by the loops and its
    bottom-mid read, at offset W*H + W - 1, is outside the buffer: the
    out-of-bounds branch is reached in muLaplace (both selectors), muSobel
    and muPrewitt. *)
Theorem last_window_reads_past_the_raster src dst :
  valid_pair src dst →
  2 ≤ width src → 2 ≤ height src →
  Z.of_nat (length (imagedata src)) = width src * height src →
  let index := (width src - 2) + width src * (height src - 2) in
  index + Z.shiftl (width src) 1 + 1 = width src * height src + width src - 1 ∧
  load (imagedata src) (index + Z.shiftl (width src) 1 + 1) = None ∧
  muLaplace src dst x01 = None ∧
  muLaplace src dst x02 = None ∧
  muSobel src dst = None ∧
  muPrewitt src dst = None.
Proof.
  intros Hv Hw Hh Hlen index.
  assert (Hidx : index + Z.shiftl (width src) 1 + 1
                 = width src * height src + width src - 1).
  { unfold index. rewrite shiftl_1. ring. }
  assert (Hload : load (imagedata src) (index + Z.shiftl (width src) 1 + 1)
                  = None).
  { apply load_outside. right. lia. }
  split; [exact Hidx|]. split; [exact Hload|].
  rewrite !muLaplace_unfold, muSobel_unfold, muPrewitt_unfold.
  rewrite check_images_valid by done. simpl.
  rewrite (scan_fault laplace1_temp _ _ _ _ (width src - 2) (height src - 2))
    by (lia || by apply laplace1_temp_fault).
  rewrite (scan_fault laplace2_temp _ _ _ _ (width src - 2) (height src - 2))
    by (lia || by apply laplace2_temp_fault).
  rewrite (scan_fault sobel_temp _ _ _ _ (width src - 2) (height src - 2))
    by (lia || by apply sobel_temp_fault).
  rewrite (scan_fault prewitt_temp _ _ _ _ (width src - 2) (height src - 2))
    by (lia || by apply prewitt_temp_fault).
  repeat split.
Qed.

Lemma last_window_reads_past_the_raster_witness :
  valid_pair sample_2x2 sample_dst_2x2 ∧
  Z.of_nat (length (imagedata sample_2x2))
  = width sample_2x2 * height sample_2x2 ∧
  load (imagedata sample_2x2) 5 = None ∧
  muLaplace sample_2x2 sample_dst_2x2 x01 = None ∧
  muLaplace sample_2x2 sample_dst_2x2 x02 = None ∧
  muSobel sample_2x2 sample_dst_2x2 = None ∧
  muPrewitt sample_2x2 sample_dst_2x2 = None.
Proof.
  assert (Hv : valid_pair sample_2x2 sample_dst_2x2) by (repeat split).
  assert (Hlen : Z.of_nat (length (imagedata sample_2x2))
                 = width sample_2x2 * height sample_2x2) by reflexivity.
  split; [exact Hv|]. split; [exact Hlen|].
  apply (last_window_reads_past_the_raster sample_2x2 sample_dst_2x2 Hv);
    simpl; (lia || reflexivity).
Defined.

(** ** Stores in the last row and the last column *)

(** What a pass does at the border of a raster of width and height at
    least 2: the top row and the left column are as before; the pixel of
    the last row and last column, at offset [w*h - 1], holds the response
    of the window anchored at [(w-2, h-2)]. *)
Lemma pass_result_border resp inp w h out out' :
  2 ≤ w → 2 ≤ h →
  pass_result resp inp w h out out' →
  (∀ x, 0 ≤ x < w → out' !! Z.to_nat x = out !! Z.to_nat x) ∧
  (∀ y, 0 ≤ y < h → out' !! Z.to_nat (w * y) = out !! Z.to_nat (w * y)) ∧
  load out' (w * h - 1) = Some (resp (window inp w (w - 2) (h - 2))).
Proof.
  intros Hw Hh (_ & Hval & Hframe). repeat split.
  - intros x Hx. apply Hframe. intros i j Hi Hj.
    assert (w ≤ w * (j + 1)) by nia. lia.
  - intros y Hy. apply Hframe. intros i j Hi Hj.
    assert (0 ≤ w * y) by nia.
    destruct (Z.le_gt_cases y (j + 1)).
    + assert (w * y ≤ w * (j + 1)) by (apply Z.mul_le_mono_nonneg_l; lia).
      lia.
    + assert (w * (j + 2) ≤ w * y) by (apply Z.mul_le_mono_nonneg_l; lia).
      lia.
  - replace (w * h - 1) with ((w - 2 + 1) + w * (h - 2 + 1)) by ring.
    apply Hval; lia.
Qed.


(** C2 fails on the code.  With the 3x3 destination filled with the
    sentinel 0xaa, each software path leaves the sentinel in the top row
    and in the left column, and overwrites it at (2,1) in the last column,
    at (1,2) in the last row and at (2,2) in both. *)
Theorem sentinel_overwritten_in_last_row_and_column :
  muLaplace sample_src sample_dst x01
  = Some (MU_ERR_SUCCESS, [xaa; xaa; xaa;
                           xaa; xff; xcd;
                           xaa; x5f; xdc]) ∧
  muLaplace sample_src sample_dst x02
  = Some (MU_ERR_SUCCESS, [xaa; xaa; xaa;
                           xaa; xff; x69;
                           xaa; x7d; xff]) ∧
  muSobel sample_src sample_dst
  = Some (MU_ERR_SUCCESS, [xaa; xaa; xaa;
                           xaa; xff; xff;
                           xaa; xff; xff]) ∧
  muPrewitt sample_src sample_dst
  = Some (MU_ERR_SUCCESS, [xaa; xaa; xaa;
                           xaa; xf0; xff;
                           xaa; xff; xff]).
Proof. repeat split; vm_compute; reflexivity. Qed.

(** ** The bright pixel scenario *)

(** C4 as stated fails on the code: for the 4x4 image with 255 at (1,1),
    there is no interior pixel adjacent to (1,1) that carries the only
    non-zero interior response of muSobel; three interior pixels respond. *)
Lemma bright_pixel_has_three_responses :
  muSobel (bright_pixel [x00; x00; x00; x00; x00]) zero_4x4
  = Some (MU_ERR_SUCCESS, bright_pixel_sobel) ∧
  ¬ (∃ x y,
        interior 4 4 x y ∧ adjacent x y 1 1 ∧
        response_at bright_pixel_sobel 4 x y ≠ Some 0 ∧
        ∀ x' y', interior 4 4 x' y' → x' ≠ x ∨ y' ≠ y →
                 response_at bright_pixel_sobel 4 x' y' = Some 0).
Proof.
  split; [vm_compute; reflexivity|].
  intros (x & y & _ & _ & _ & Hzero).
  destruct (decide (x = 2 ∧ y = 1)) as [[-> ->]|Hother].
  - assert (H : response_at bright_pixel_sobel 4 1 2 = Some 0)
      by (apply Hzero; unfold interior; lia).
    vm_compute in H. discriminate.
  - assert (H : response_at bright_pixel_sobel 4 2 1 = Some 0)
      by (apply Hzero; unfold interior; lia).
    vm_compute in H. discriminate.
Qed.

(** C4, as the code has it: for the 4x4 image whose only non-zero pixel is
    255 at (1,1), in a buffer that reaches offset 20, and a destination
    that holds the raster, muSobel returns the success status and leaves
    255 at each interior pixel adjacent to (1,1), that is at (2,1), (1,2)
    and (2,2), and 0 at every other interior pixel, that is at (1,1). *)
Theorem bright_pixel_sobel_responses pad dst :
  depth dst = MU_IMG_DEPTH_8U → channels dst = 1 →
  (5 ≤ length pad)%nat → (16 ≤ length (imagedata dst))%nat →
  ∃ out',
    muSobel (bright_pixel pad) dst = Some (MU_ERR_SUCCESS, out') ∧
    ∀ x y, interior 4 4 x y →
      (adjacent x y 1 1 → response_at out' 4 x y = Some 255) ∧
      (¬ adjacent x y 1 1 → response_at out' 4 x y = Some 0).
Proof.
  intros Hd Hc Hpad Hdst.
  destruct (muSobel_total (bright_pixel pad) dst)
    as (out' & Hrun & _ & Hval & _).
  { by repeat split. }
  { simpl. lia. }
  { simpl. lia. }
  exists out'. split; [exact Hrun|].
  assert (H11 : response_at out' 4 1 1 = Some 0).
  { etransitivity; [exact (Hval 0 0 ltac:(simpl; lia) ltac:(simpl; lia))|].
    vm_compute. reflexivity. }
  assert (H21 : response_at out' 4 2 1 = Some 255).
  { etransitivity; [exact (Hval 1 0 ltac:(simpl; lia) ltac:(simpl; lia))|].
    vm_compute. reflexivity. }
  assert (H12 : response_at out' 4 1 2 = Some 255).
  { etransitivity; [exact (Hval 0 1 ltac:(simpl; lia) ltac:(simpl; lia))|].
    vm_compute. reflexivity. }
  assert (H22 : response_at out' 4 2 2 = Some 255).
  { etransitivity; [exact (Hval 1 1 ltac:(simpl; lia) ltac:(simpl; lia))|].
    vm_compute. reflexivity. }
  intros x y [Hx Hy].
  assert (Ex : x = 1 ∨ x = 2) by lia.
  assert (Ey : y = 1 ∨ y = 2) by lia.
  unfold adjacent.
  destruct Ex as [-> | ->], Ey as [-> | ->]; split; intros Ha;
    try assumption; exfalso; lia.
Qed.

Lemma bright_pixel_sobel_responses_witness :
  depth zero_4x4 = MU_IMG_DEPTH_8U ∧ channels zero_4x4 = 1 ∧
  ∃ out',
    muSobel (bright_pixel [x00; x00; x00; x00; x00]) zero_4x4
    = Some (MU_ERR_SUCCESS, out') ∧
    ∀ x y, interior 4 4 x y →
      (adjacent x y 1 1 → response_at out' 4 x y = Some 255) ∧
      (¬ adjacent x y 1 1 → response_at out' 4 x y = Some 0).
Proof.
  split; [reflexivity|]. split; [reflexivity|].
  apply (bright_pixel_sobel_responses [x00; x00; x00; x00; x00] zero_4x4);
    [reflexivity | reflexivity | simpl; lia | simpl; lia].
Defined.

(** ** Further properties of the software paths *)

(** *** The values muPrewitt writes *)

(** X1.  On every pair of images that passes validation, whenever muPrewitt
    completes it returns the success status and, for every window origin
    (i, j) of the loops, the byte at offset (i+1) + W*(j+1) holds
    min(255, |Gx| + |Gy|) with the unweighted kernels: Gx is the sum of the
    top row of the window minus the sum of its bottom row, Gy the sum of
    its left column minus the sum of its right column; no other byte of the
    destination changes.  It completes when the source buffer reaches
    offset W*H + W and the destination holds the W x H raster. *)
Theorem muPrewitt_writes_clamped_gradient src dst :
  valid_pair src dst →
  (width src * height src + width src < Z.of_nat (length (imagedata src)) →
   width src * height src ≤ Z.of_nat (length (imagedata dst)) →
   is_Some (muPrewitt src dst)) ∧
  (∀ status out',
     muPrewitt src dst = Some (status, out') →
     status = MU_ERR_SUCCESS ∧
     (∀ i j, 0 ≤ i < width src - 1 → 0 ≤ j < height src - 1 →
        let p := window (imagedata src) (width src) i j in
        let Gx := (p 0 0 + p 1 0 + p 2 0) - (p 0 2 + p 1 2 + p 2 2) in
        let Gy := (p 0 0 + p 0 1 + p 0 2) - (p 2 0 + p 2 1 + p 2 2) in
        load out' ((i + 1) + width src * (j + 1))
        = Some (Z.min 255 (Z.abs Gx + Z.abs Gy))) ∧
     (∀ n : nat,
        (∀ i j, 0 ≤ i < width src - 1 → 0 ≤ j < height src - 1 →
                Z.to_nat ((i + 1) + width src * (j + 1)) ≠ n) →
        out' !! n = imagedata dst !! n)).
Proof.
  intros Hv. split.
  - intros Hinp Hout.
    destruct (muPrewitt_total src dst Hv Hinp Hout) as (out' & Hrun & _).
    rewrite Hrun. eauto.
  - intros status out' Hrun.
    destruct (muPrewitt_correct src dst status out' Hv Hrun)
      as (Hs & _ & Hval & Hframe).
    split; [exact Hs|]. split; [|exact Hframe].
    intros i j Hi Hj. simpl. exact (Hval i j Hi Hj).
Qed.

Lemma muPrewitt_writes_clamped_gradient_witness :
  valid_pair sample_src sample_dst ∧
  ∃ out',
    muPrewitt sample_src sample_dst = Some (MU_ERR_SUCCESS, out') ∧
    ∀ i j, 0 ≤ i < width sample_src - 1 → 0 ≤ j < height sample_src - 1 →
      let p := window (imagedata sample_src) (width sample_src) i j in
      let Gx := (p 0 0 + p 1 0 + p 2 0) - (p 0 2 + p 1 2 + p 2 2) in
      let Gy := (p 0 0 + p 0 1 + p 0 2) - (p 2 0 + p 2 1 + p 2 2) in
      load out' ((i + 1) + width sample_src * (j + 1))
      = Some (Z.min 255 (Z.abs Gx + Z.abs Gy)).
Proof.
  assert (Hv : valid_pair sample_src sample_dst) by (repeat split).
  split; [exact Hv|].
  destruct (muPrewitt_writes_clamped_gradient sample_src sample_dst Hv)
    as [Htotal Hcorrect].
  destruct Htotal as [[status out'] Hrun]; [simpl; lia | simpl; lia |].
  destruct (Hcorrect status out' Hrun) as (-> & Hval & _).
  exists out'. split; [exact Hrun | exact Hval].
Defined.

(** *** When a pass completes *)

Section Completion.

Context (temp_of : list byte → Z → Z → option Z).
Context (resp : (Z → Z → Z) → Z) (reach : Z).
Context (op : muImage_t → muImage_t → option (muError_t * list byte)).

Hypothesis temp_total : ∀ inp w i j,
  1 ≤ w → 0 ≤ i → 0 ≤ j →
  i + w * j + 2 * w + reach < Z.of_nat (length inp) →
  temp_of inp w (i + w * j) = Some (resp (window inp w i j)).

Hypothesis temp_reads : ∀ inp w index t,
  temp_of inp w index = Some t →
  index + 2 * w + reach < Z.of_nat (length inp).

Hypothesis resp_range : ∀ p, 0 ≤ resp p ≤ 255.

Hypothesis op_unfold : ∀ src dst,
  op src dst =
  match check_images src dst with
  | Some ret => Some (ret, imagedata dst)
  | None =>
      out ← scan temp_of (imagedata src) (width src) (height src)
              (imagedata dst);
      Some (MU_ERR_SUCCESS, out)
  end.

(** With at least two rows and two columns the origin [(w-2, h-2)] is
    visited; its last read is at offset [w*h + w + reach - 2] and its store
    at offset [w*h - 1], the largest of the pass. *)
Lemma scan_defined_iff inp w h out :
  2 ≤ w → 2 ≤ h →
  is_Some (scan temp_of inp w h out) ↔
  w * h + w + reach - 2 < Z.of_nat (length inp) ∧
  w * h ≤ Z.of_nat (length out).
Proof.
  intros Hw Hh. split.
  - intros [out' Hrun].
    destruct (scan_inv _ _ _ _ _ _ (w - 2) (h - 2) Hrun) as [[t Ht] Hpos];
      [lia | lia |].
    apply temp_reads in Ht.
    replace (w - 2 + w * (h - 2) + 2 * w + reach)
      with (w * h + w + reach - 2) in Ht by ring.
    replace (w - 2 + 1 + w * (h - 2 + 1)) with (w * h - 1) in Hpos by ring.
    lia.
  - intros [Hinp Hout].
    destruct (pass_outcome temp_of resp reach temp_total resp_range
                inp w h out) as (out' & Hrun & _).
    { intros i j Hi Hj.
      assert (w * (j + 2) ≤ w * h) by (apply Z.mul_le_mono_nonneg_l; lia).
      lia. }
    rewrite Hrun. eauto.
Qed.

Lemma operator_defined_iff src dst :
  valid_pair src dst →
  2 ≤ width src → 2 ≤ height src →
  is_Some (op src dst) ↔
  width src * height src + width src + reach - 2
    < Z.of_nat (length (imagedata src)) ∧
  width src * height src ≤ Z.of_nat (length (imagedata dst)).
Proof.
  intros Hv Hw Hh. rewrite op_unfold, check_images_valid by done.
  rewrite <- scan_defined_iff by done.
  destruct (scan temp_of _ _ _ _); simpl; split; intros [x Hx]; eauto;
    discriminate.
Qed.

End Completion.

(** X2.  For every pair of images that passes validation, of width and height
    at least 2, muSobel completes exactly when the source buffer has more
    than W*H + W bytes and the destination buffer at least W*H bytes; so
    does muPrewitt.  Otherwise a load or a store is out of bounds. *)
Theorem muSobel_muPrewitt_complete_iff src dst :
  valid_pair src dst →
  2 ≤ width src → 2 ≤ height src →
  (is_Some (muSobel src dst) ↔
   width src * height src + width src < Z.of_nat (length (imagedata src)) ∧
   width src * height src ≤ Z.of_nat (length (imagedata dst))) ∧
  (is_Some (muPrewitt src dst) ↔
   width src * height src + width src < Z.of_nat (length (imagedata src)) ∧
   width src * height src ≤ Z.of_nat (length (imagedata dst))).
Proof.
  intros Hv Hw Hh. split.
  - rewrite (operator_defined_iff sobel_temp sobel_response 2 muSobel);
      try done;
      [ lia | intros; by apply sobel_temp_window | apply sobel_temp_reads
      | apply sobel_response_range | apply muSobel_unfold ].
  - rewrite (operator_defined_iff prewitt_temp prewitt_response 2 muPrewitt);
      try done;
      [ lia | intros; by apply prewitt_temp_window | apply prewitt_temp_reads
      | apply prewitt_response_range | apply muPrewitt_unfold ].
Qed.

Lemma muSobel_muPrewitt_complete_iff_witness :
  valid_pair sample_src sample_dst ∧
  2 ≤ width sample_src ∧ 2 ≤ height sample_src ∧
  is_Some (muSobel sample_src sample_dst) ∧
  ¬ is_Some (muPrewitt sample_2x2 sample_dst_2x2).
Proof.
  assert (Hv : valid_pair sample_src sample_dst) by (repeat split).
  assert (Hv2 : valid_pair sample_2x2 sample_dst_2x2) by (repeat split).
  split; [exact Hv|]. split; [simpl; lia|]. split; [simpl; lia|]. split.
  - apply (muSobel_muPrewitt_complete_iff sample_src sample_dst Hv);
      simpl; lia.
  - intros Hsome.
    apply (muSobel_muPrewitt_complete_iff sample_2x2 sample_dst_2x2 Hv2)
      in Hsome; simpl in *; lia.
Defined.

(** X3.  For every pair of images that passes validation, of width and height
    at least 2, muLaplace with selector 1 completes exactly when the source
    buffer has at least W*H + W bytes and the destination at least W*H
    bytes; with selector 2 the source buffer needs one byte more. *)
Theorem muLaplace_complete_iff src dst :
  valid_pair src dst →
  2 ≤ width src → 2 ≤ height src →
  (is_Some (muLaplace src dst x01) ↔
   width src * height src + width src ≤ Z.of_nat (length (imagedata src)) ∧
   width src * height src ≤ Z.of_nat (length (imagedata dst))) ∧
  (is_Some (muLaplace src dst x02) ↔
   width src * height src + width src < Z.of_nat (length (imagedata src)) ∧
   width src * height src ≤ Z.of_nat (length (imagedata dst))).
Proof.
  intros Hv Hw Hh. split.
  - rewrite (operator_defined_iff laplace1_temp laplace4_response 1
               (λ src dst, muLaplace src dst x01));
      try done;
      [ lia | apply laplace1_temp_total | apply laplace1_temp_reads
      | apply laplace4_response_range | apply muLaplace1_unfold ].
  - rewrite (operator_defined_iff laplace2_temp laplace8_response 2
               (λ src dst, muLaplace src dst x02));
      try done;
      [ lia | intros; by apply laplace2_temp_window
      | apply laplace2_temp_reads
      | apply laplace8_response_range | apply muLaplace2_unfold ].
Qed.

Lemma muLaplace_complete_iff_witness :
  valid_pair sample_src_12 sample_dst ∧
  2 ≤ width sample_src_12 ∧ 2 ≤ height sample_src_12 ∧
  is_Some (muLaplace sample_src_12 sample_dst x01) ∧
  ¬ is_Some (muLaplace sample_src_12 sample_dst x02).
Proof.
  assert (Hv : valid_pair sample_src_12 sample_dst) by (repeat split).
  assert (Hw : 2 ≤ width sample_src_12) by (simpl; lia).
  assert (Hh : 2 ≤ height sample_src_12) by (simpl; lia).
  split; [exact Hv|]. split; [exact Hw|]. split; [exact Hh|].
  destruct (muLaplace_complete_iff sample_src_12 sample_dst Hv Hw Hh)
    as [H1 H2].
  split.
  - apply H1. simpl. lia.
  - intros Hsome. apply H2 in Hsome. simpl in Hsome. lia.
Defined.

(** *** Rasters without a window *)

(** X4.  For every pair of images that passes validation and whose source has
    width at most 1 or height at most 1 (an empty raster, or a negative
    dimension, included), muLaplace with any selector, muSobel and
    muPrewitt return the success status and leave the destination buffer
    as it is, whatever the sizes of the two buffers. *)
Theorem no_window_is_noop src dst selection :
  valid_pair src dst →
  width src ≤ 1 ∨ height src ≤ 1 →
  muLaplace src dst selection = Some (MU_ERR_SUCCESS, imagedata dst) ∧
  muSobel src dst = Some (MU_ERR_SUCCESS, imagedata dst) ∧
  muPrewitt src dst = Some (MU_ERR_SUCCESS, imagedata dst).
Proof.
  intros Hv Hno.
  rewrite muLaplace_unfold, muSobel_unfold, muPrewitt_unfold.
  rewrite check_images_valid by done.
  rewrite !scan_no_origin by done.
  repeat split.
  destruct (Z_of_MU_8U selection) as [|[p|[q|q|]|]|p]; reflexivity.
Qed.

Lemma no_window_is_noop_witness :
  valid_pair sample_empty sample_dst ∧
  (width sample_empty ≤ 1 ∨ height sample_empty ≤ 1) ∧
  muLaplace sample_empty sample_dst x01
  = Some (MU_ERR_SUCCESS, imagedata sample_dst) ∧
  muSobel sample_empty sample_dst
  = Some (MU_ERR_SUCCESS, imagedata sample_dst) ∧
  muPrewitt sample_empty sample_dst
  = Some (MU_ERR_SUCCESS, imagedata sample_dst).
Proof.
  assert (Hv : valid_pair sample_empty sample_dst) by (repeat split).
  assert (Hno : width sample_empty ≤ 1 ∨ height sample_empty ≤ 1)
    by (left; simpl; lia).
  exact (conj Hv (conj Hno
    (no_window_is_noop sample_empty sample_dst x01 Hv Hno))).
Defined.

(** *** The top row and the left column *)

(** What every completed pass leaves alone: the bytes before offset [w]
    and the bytes at the multiples of [w]. *)
Lemma pass_result_keeps resp inp w h out out' :
  pass_result resp inp w h out out' →
  (∀ x, 0 ≤ x < w → out' !! Z.to_nat x = out !! Z.to_nat x) ∧
  (∀ y, 0 ≤ y → out' !! Z.to_nat (w * y) = out !! Z.to_nat (w * y)).
Proof.
  intros (_ & _ & Hframe). split.
  - intros x Hx. apply Hframe. intros i j Hi Hj.
    assert (w ≤ w * (j + 1)) by nia. lia.
  - intros y Hy. apply Hframe. intros i j Hi Hj.
    assert (0 ≤ w * y) by nia.
    assert (0 ≤ w * j) by nia.
    destruct (Z.le_gt_cases y (j + 1)).
    + assert (w * y ≤ w * (j + 1)) by (apply Z.mul_le_mono_nonneg_l; lia).
      lia.
    + assert (w * (j + 2) ≤ w * y) by (apply Z.mul_le_mono_nonneg_l; lia).
      lia.
Qed.

(** X5.  On every pair of images that passes validation, whenever muLaplace
    (selector 1 or 2), muSobel or muPrewitt completes, every byte of the
    top row of the destination (offsets 0 .. W-1) and every byte of its
    left column (offsets W*y) is what it was before the call. *)
Theorem top_row_and_left_column_are_kept src dst :
  valid_pair src dst →
  ∀ r status out',
    r ∈ software_paths src dst → r = Some (status, out') →
    (∀ x, 0 ≤ x < width src →
          out' !! Z.to_nat x = imagedata dst !! Z.to_nat x) ∧
    (∀ y, 0 ≤ y →
          out' !! Z.to_nat (width src * y)
          = imagedata dst !! Z.to_nat (width src * y)).
Proof.
  intros Hv r status out' Hr Hrun. subst r. unfold software_paths in Hr.
  apply elem_of_cons in Hr as [Hr|Hr];
    [|apply elem_of_cons in Hr as [Hr|Hr];
      [|apply elem_of_cons in Hr as [Hr|Hr];
        [|apply elem_of_cons in Hr as [Hr|Hr];
          [|by apply elem_of_nil in Hr]]]];
    symmetry in Hr.
  - destruct (muLaplace1_correct src dst status out' Hv Hr) as [_ Hres].
    exact (pass_result_keeps _ _ _ _ _ _ Hres).
  - destruct (muLaplace2_correct src dst status out' Hv Hr) as [_ Hres].
    exact (pass_result_keeps _ _ _ _ _ _ Hres).
  - destruct (muSobel_correct src dst status out' Hv Hr) as [_ Hres].
    exact (pass_result_keeps _ _ _ _ _ _ Hres).
  - destruct (muPrewitt_correct src dst status out' Hv Hr) as [_ Hres].
    exact (pass_result_keeps _ _ _ _ _ _ Hres).
Qed.

Lemma top_row_and_left_column_are_kept_witness :
  valid_pair sample_src sample_dst ∧
  ∀ r, r ∈ software_paths sample_src sample_dst →
    ∃ out', r = Some (MU_ERR_SUCCESS, out') ∧
      (∀ x, 0 ≤ x < width sample_src →
            out' !! Z.to_nat x = imagedata sample_dst !! Z.to_nat x) ∧
      (∀ y, 0 ≤ y →
            out' !! Z.to_nat (width sample_src * y)
            = imagedata sample_dst !! Z.to_nat (width sample_src * y)).
Proof.
  assert (Hv : valid_pair sample_src sample_dst) by (repeat split).
  split; [exact Hv|]. intros r Hr.
  assert (Hsome : ∃ out', r = Some (MU_ERR_SUCCESS, out')).
  { unfold software_paths in Hr.
    repeat (apply elem_of_cons in Hr as [->|Hr];
            [eexists; vm_compute; reflexivity|]).
    by apply elem_of_nil in Hr. }
  destruct Hsome as [out' Hrun]. exists out'. split; [exact Hrun|].
  exact (top_row_and_left_column_are_kept sample_src sample_dst Hv
           r MU_ERR_SUCCESS out' Hr Hrun).
Defined.

(** *** Running an operator again on its own output *)

(** A pass that completes leaves, one row and one column inset from each
    origin, the byte computed for that origin. *)
Lemma scan_lookup temp_of inp w h out out' :
  scan temp_of inp w h out = Some out' →
  length out' = length out ∧
  (∀ i j, 0 ≤ i < w - 1 → 0 ≤ j < h - 1 →
          ∃ t, temp_of inp w (i + w * j) = Some t ∧
               out' !! Z.to_nat ((i + 1) + w * (j + 1))
               = Some (MU_8U_of_Z t)) ∧
  (∀ n : nat,
      (∀ i j, 0 ≤ i < w - 1 → 0 ≤ j < h - 1 →
              Z.to_nat ((i + 1) + w * (j + 1)) ≠ n) →
      out' !! n = out !! n).
Proof.
  intros Hrun.
  destruct (scan_run temp_of inp w h out
              (λ i j, default 0 (temp_of inp w (i + w * j))))
    as (out'' & Hrun' & Hlen & Hval & Hframe).
  { intros i j Hi Hj.
    destruct (scan_inv _ _ _ _ _ _ i j Hrun Hi Hj) as [[t Ht] _].
    by rewrite Ht. }
  { intros i j Hi Hj. by destruct (scan_inv _ _ _ _ _ _ i j Hrun Hi Hj). }
  assert (out'' = out') as -> by congruence.
  split; [exact Hlen|]. split; [|exact Hframe].
  intros i j Hi Hj.
  destruct (scan_inv _ _ _ _ _ _ i j Hrun Hi Hj) as [[t Ht] _].
  exists t. split; [exact Ht|]. rewrite (Hval i j Hi Hj), Ht. reflexivity.
Qed.

(** A second pass over the output of the first one stores the same bytes
    at the same places. *)
Lemma scan_rerun temp_of inp w h out out' :
  scan temp_of inp w h out = Some out' →
  scan temp_of inp w h out' = Some out'.
Proof.
  intros Hrun.
  destruct (scan_lookup _ _ _ _ _ _ Hrun) as (Hlen & Hval & _).
  destruct (scan_run temp_of inp w h out'
              (λ i j, default 0 (temp_of inp w (i + w * j))))
    as (out'' & Hrun' & Hlen' & Hval' & Hframe').
  { intros i j Hi Hj. destruct (Hval i j Hi Hj) as (t & Ht & _).
    by rewrite Ht. }
  { intros i j Hi Hj. rewrite Hlen.
    by destruct (scan_inv _ _ _ _ _ _ i j Hrun Hi Hj). }
  rewrite Hrun'. f_equal. apply list_eq. intros n.
  destruct (decide (n ∈ (λ o, Z.to_nat (inset w o)) <$> origins w h))
    as [Hin|Hout].
  - apply list_elem_of_fmap in Hin as ([i j] & -> & Ho).
    apply elem_of_origins in Ho as [Hi Hj]. simpl in Hi, Hj.
    replace (inset w (i, j)) with ((i + 1) + w * (j + 1))
      by (unfold inset; simpl; ring).
    rewrite (Hval' i j Hi Hj).
    destruct (Hval i j Hi Hj) as (t & Ht & ->). by rewrite Ht.
  - apply Hframe'. intros i j Hi Hj Heq. apply Hout.
    apply list_elem_of_fmap. exists (i, j). split.
    + rewrite <- Heq. unfold inset. simpl. f_equal. ring.
    + by apply elem_of_origins.
Qed.

Lemma check_images_with_imagedata src dst data :
  check_images src (with_imagedata dst data) = check_images src dst.
Proof. reflexivity. Qed.

(** X6.  Whenever muLaplace (with any selector), muSobel or muPrewitt returns,
    with whatever status, calling it again on the same source with the
    destination it left returns the same status and leaves that
    destination unchanged. *)
Theorem rerun_on_own_output src dst selection status out' :
  (muLaplace src dst selection = Some (status, out') →
   muLaplace src (with_imagedata dst out') selection = Some (status, out')) ∧
  (muSobel src dst = Some (status, out') →
   muSobel src (with_imagedata dst out') = Some (status, out')) ∧
  (muPrewitt src dst = Some (status, out') →
   muPrewitt src (with_imagedata dst out') = Some (status, out')).
Proof.
  rewrite !muLaplace_unfold, !muSobel_unfold, !muPrewitt_unfold.
  rewrite !check_images_with_imagedata.
  destruct (check_images src dst) as [ret|]; simpl.
  { repeat split; intros [= <- <-]; reflexivity. }
  split; [|split].
  - destruct (Z_of_MU_8U selection) as [|[p|[q|q|]|]|p]; simpl;
      try (intros [= <- <-]; reflexivity).
    + destruct (scan laplace2_temp _ _ _ _) as [o|] eqn:Hrun; simpl; [|done].
      intros [= <- <-]. by rewrite (scan_rerun _ _ _ _ _ _ Hrun).
    + destruct (scan laplace1_temp _ _ _ _) as [o|] eqn:Hrun; simpl; [|done].
      intros [= <- <-]. by rewrite (scan_rerun _ _ _ _ _ _ Hrun).
  - destruct (scan sobel_temp _ _ _ _) as [o|] eqn:Hrun; simpl; [|done].
    intros [= <- <-]. by rewrite (scan_rerun _ _ _ _ _ _ Hrun).
  - destruct (scan prewitt_temp _ _ _ _) as [o|] eqn:Hrun; simpl; [|done].
    intros [= <- <-]. by rewrite (scan_rerun _ _ _ _ _ _ Hrun).
Qed.

Lemma rerun_on_own_output_witness :
  muSobel sample_src sample_dst
  = Some (MU_ERR_SUCCESS, [xaa; xaa; xaa; xaa; xff; xff; xaa; xff; xff]) ∧
  muSobel sample_src
    (with_imagedata sample_dst [xaa; xaa; xaa; xaa; xff; xff; xaa; xff; xff])
  = Some (MU_ERR_SUCCESS, [xaa; xaa; xaa; xaa; xff; xff; xaa; xff; xff]).
Proof.
  assert (Hrun : muSobel sample_src sample_dst
                 = Some (MU_ERR_SUCCESS,
                         [xaa; xaa; xaa; xaa; xff; xff; xaa; xff; xff]))
    by (vm_compute; reflexivity).
  split; [exact Hrun|].
  exact (proj1 (proj2 (rerun_on_own_output sample_src sample_dst x01
                         MU_ERR_SUCCESS _)) Hrun).
Defined.

(** *** Adding a constant to every pixel *)

Section Offset.

Context (inp inp' : list byte) (c : Z).
Hypothesis same_length : length inp' = length inp.
Hypothesis offset : ∀ k,
  0 ≤ k < Z.of_nat (length inp) → pixel inp' k = pixel inp k + c.

Lemma load_offset k : load inp' k = (λ v, v + c) <$> load inp k.
Proof.
  destruct (decide (0 ≤ k < Z.of_nat (length inp))) as [Hin|Hout].
  - rewrite (load_inside inp), (load_inside inp') by (rewrite ?same_length; lia).
    simpl. by rewrite offset.
  - rewrite (load_outside inp), (load_outside inp')
      by (rewrite ?same_length; lia).
    reflexivity.
Qed.

(** Both sides differ by the constant inside the absolute values only,
    where it cancels. *)
Ltac cancel_offset k :=
  rewrite ?shiftl_1, ?shiftl_2, ?shiftl_3;
  repeat match goal with
         | |- ?lhs = ?rhs =>
             match lhs with
             | context [Z.abs ?a] =>
                 match a with
                 | context [k] =>
                     match rhs with
                     | context [Z.abs ?b] => replace a with b by lia
                     end
                 end
             end
         end;
  reflexivity.

Ltac offset_loads c :=
  rewrite !load_offset;
  repeat match goal with
         | |- context [load inp ?k] =>
             destruct (load inp k);
             cbn [fmap option_fmap option_map mbind option_bind];
             [|reflexivity]
         end;
  cancel_offset c.

Lemma laplace1_temp_offset w index :
  laplace1_temp inp' w index = laplace1_temp inp w index.
Proof. unfold laplace1_temp. offset_loads c. Qed.

Lemma laplace2_temp_offset w index :
  laplace2_temp inp' w index = laplace2_temp inp w index.
Proof. unfold laplace2_temp. offset_loads c. Qed.

Lemma sobel_temp_offset w index :
  sobel_temp inp' w index = sobel_temp inp w index.
Proof. unfold sobel_temp. offset_loads c. Qed.

Lemma prewitt_temp_offset w index :
  prewitt_temp inp' w index = prewitt_temp inp w index.
Proof. unfold prewitt_temp. offset_loads c. Qed.

End Offset.

Lemma scan_ext temp_of inp inp' w h out :
  (∀ index, temp_of inp' w index = temp_of inp w index) →
  scan temp_of inp' w h out = scan temp_of inp w h out.
Proof.
  intros Heq. unfold scan, for_lt.
  apply for_each_ext. intros j s. apply for_each_ext. intros i t.
  by rewrite Heq.
Qed.

(** X7.  When every byte of a second source buffer of the same length is the
    byte of the first plus one constant c, muLaplace (with any selector),
    muSobel and muPrewitt return on the second source exactly what they
    return on the first: the same status and the same destination bytes,
    or the same fault. *)
Theorem constant_offset_is_not_seen src dst (inp' : list byte) c selection :
  length inp' = length (imagedata src) →
  (∀ k, 0 ≤ k < Z.of_nat (length (imagedata src)) →
        pixel inp' k = pixel (imagedata src) k + c) →
  muLaplace (with_imagedata src inp') dst selection
  = muLaplace src dst selection ∧
  muSobel (with_imagedata src inp') dst = muSobel src dst ∧
  muPrewitt (with_imagedata src inp') dst = muPrewitt src dst.
Proof.
  intros Hlen Hoff.
  rewrite !muLaplace_unfold, !muSobel_unfold, !muPrewitt_unfold.
  change (check_images (with_imagedata src inp') dst)
    with (check_images src dst).
  destruct (check_images src dst); [done|]. simpl.
  rewrite (scan_ext laplace1_temp (imagedata src) inp')
    by (intros; by apply (laplace1_temp_offset _ _ c)).
  rewrite (scan_ext laplace2_temp (imagedata src) inp')
    by (intros; by apply (laplace2_temp_offset _ _ c)).
  rewrite (scan_ext sobel_temp (imagedata src) inp')
    by (intros; by apply (sobel_temp_offset _ _ c)).
  rewrite (scan_ext prewitt_temp (imagedata src) inp')
    by (intros; by apply (prewitt_temp_offset _ _ c)).
  done.
Qed.

Lemma constant_offset_is_not_seen_witness :
  length sample_light_data = length (imagedata sample_dark) ∧
  (∀ k, 0 ≤ k < Z.of_nat (length (imagedata sample_dark)) →
        pixel sample_light_data k = pixel (imagedata sample_dark) k + 100) ∧
  muLaplace (with_imagedata sample_dark sample_light_data) sample_dst x02
  = muLaplace sample_dark sample_dst x02 ∧
  muSobel (with_imagedata sample_dark sample_light_data) sample_dst
  = muSobel sample_dark sample_dst ∧
  muPrewitt (with_imagedata sample_dark sample_light_data) sample_dst
  = muPrewitt sample_dark sample_dst.
Proof.
  assert (Hlen : length sample_light_data = length (imagedata sample_dark))
    by reflexivity.
  assert (Hoff : ∀ k, 0 ≤ k < Z.of_nat (length (imagedata sample_dark)) →
                      pixel sample_light_data k
                      = pixel (imagedata sample_dark) k + 100).
  { simpl. intros k Hk.
    assert (Ek : k = 0 ∨ k = 1 ∨ k = 2 ∨ k = 3 ∨ k = 4 ∨ k = 5 ∨ k = 6 ∨
                 k = 7 ∨ k = 8 ∨ k = 9 ∨ k = 10 ∨ k = 11 ∨ k = 12) by lia.
    repeat (destruct Ek as [->|Ek]; [reflexivity|]). subst k. reflexivity. }
  split; [exact Hlen|]. split; [exact Hoff|].
  exact (constant_offset_is_not_seen sample_dark sample_dst
           sample_light_data 100 x02 Hlen Hoff).
Defined.

(** *** An isolated pixel under muLaplace *)

(** X8.  On every pair of images that passes validation, for every window
    origin (i, j) of the loops whose window is 0 around its centre pixel C,
    whenever muLaplace completes the byte at the inset centre is
    min(255, 4 C) with selector 1 and min(255, 8 C) with selector 2: from
    C = 64 (selector 1) or C = 32 (selector 2) on it is 255, not the low
    byte of the product. *)
Theorem muLaplace_isolated_pixel src dst i j :
  valid_pair src dst →
  0 ≤ i < width src - 1 → 0 ≤ j < height src - 1 →
  (∀ dx dy, 0 ≤ dx ≤ 2 → 0 ≤ dy ≤ 2 → dx ≠ 1 ∨ dy ≠ 1 →
            window (imagedata src) (width src) i j dx dy = 0) →
  ∀ status out',
    (muLaplace src dst x01 = Some (status, out') →
     load out' ((i + 1) + width src * (j + 1))
     = Some (Z.min 255 (4 * window (imagedata src) (width src) i j 1 1))) ∧
    (muLaplace src dst x02 = Some (status, out') →
     load out' ((i + 1) + width src * (j + 1))
     = Some (Z.min 255 (8 * window (imagedata src) (width src) i j 1 1))).
Proof.
  intros Hv Hi Hj Hzero status out'.
  pose proof (window_range (imagedata src) (width src) i j 1 1) as Hc.
  split; intros Hrun.
  - destruct (muLaplace1_correct src dst status out' Hv Hrun)
      as (_ & _ & Hval & _).
    rewrite (Hval i j Hi Hj). f_equal. unfold laplace4_response.
    rewrite !Hzero by lia. lia.
  - destruct (muLaplace2_correct src dst status out' Hv Hrun)
      as (_ & _ & Hval & _).
    rewrite (Hval i j Hi Hj). f_equal. unfold laplace8_response.
    rewrite !Hzero by lia. lia.
Qed.

Lemma muLaplace_isolated_pixel_witness :
  valid_pair sample_isolated sample_dst ∧
  (∃ out', muLaplace sample_isolated sample_dst x01
           = Some (MU_ERR_SUCCESS, out') ∧ load out' 4 = Some 255) ∧
  (∃ out', muLaplace sample_isolated sample_dst x02
           = Some (MU_ERR_SUCCESS, out') ∧ load out' 4 = Some 255).
Proof.
  assert (Hv : valid_pair sample_isolated sample_dst) by (repeat split).
  assert (Hzero : ∀ dx dy, 0 ≤ dx ≤ 2 → 0 ≤ dy ≤ 2 → dx ≠ 1 ∨ dy ≠ 1 →
            window (imagedata sample_isolated) (width sample_isolated)
              0 0 dx dy = 0).
  { intros dx dy Hdx Hdy Hne.
    assert (Ex : dx = 0 ∨ dx = 1 ∨ dx = 2) by lia.
    assert (Ey : dy = 0 ∨ dy = 1 ∨ dy = 2) by lia.
    destruct Ex as [->|[->| ->]], Ey as [->|[->| ->]];
      try reflexivity; lia. }
  split; [exact Hv|].
  assert (H1 : ∃ out', muLaplace sample_isolated sample_dst x01
                       = Some (MU_ERR_SUCCESS, out'))
    by (eexists; vm_compute; reflexivity).
  assert (H2 : ∃ out', muLaplace sample_isolated sample_dst x02
                       = Some (MU_ERR_SUCCESS, out'))
    by (eexists; vm_compute; reflexivity).
  destruct H1 as [out1 Hrun1], H2 as [out2 Hrun2].
  split.
  - exists out1. split; [exact Hrun1|].
    exact (proj1 (muLaplace_isolated_pixel sample_isolated sample_dst 0 0
                    Hv ltac:(simpl; lia) ltac:(simpl; lia) Hzero
                    MU_ERR_SUCCESS out1) Hrun1).
  - exists out2. split; [exact Hrun2|].
    exact (proj2 (muLaplace_isolated_pixel sample_isolated sample_dst 0 0
                    Hv ltac:(simpl; lia) ltac:(simpl; lia) Hzero
                    MU_ERR_SUCCESS out2) Hrun2).
Defined.

(** *** The four passes at once *)

(** The outcome of the [n]-th software path in terms of the [n]-th
    response. *)
Lemma software_path_result src dst n r resp status out' :
  valid_pair src dst →
  software_paths src dst !! n = Some r →
  path_responses !! n = Some resp →
  r = Some (status, out') →
  status = MU_ERR_SUCCESS ∧
  pass_result resp (imagedata src) (width src) (height src)
    (imagedata dst) out'.
Proof.
  intros Hv Hr Hresp Hrun. subst r.
  destruct n as [|[|[|[|n]]]]; simpl in Hr, Hresp; try discriminate;
    injection Hr as Hr; injection Hresp as <-; symmetry in Hr.
  - by apply muLaplace1_correct.
  - by apply muLaplace2_correct.
  - by apply muSobel_correct.
  - by apply muPrewitt_correct.
Qed.

(** A response depends on the nine pixels of its window only, and is the
    same for a window and for its transpose. *)
Lemma path_response_window_only n resp (p q : Z → Z → Z) :
  path_responses !! n = Some resp →
  (∀ dx dy, 0 ≤ dx ≤ 2 → 0 ≤ dy ≤ 2 → p dx dy = q dx dy) →
  resp p = resp q.
Proof.
  intros Hresp Hpq.
  destruct n as [|[|[|[|n]]]]; simpl in Hresp; try discriminate;
    injection Hresp as <-;
    unfold laplace4_response, laplace8_response, sobel_response, sobel_Gx,
      sobel_Gy, prewitt_response, prewitt_Gx, prewitt_Gy;
    rewrite !Hpq by lia; reflexivity.
Qed.

Lemma path_response_transpose n resp (p : Z → Z → Z) :
  path_responses !! n = Some resp →
  resp (λ dx dy, p dy dx) = resp p.
Proof.
  intros Hresp.
  destruct n as [|[|[|[|n]]]]; simpl in Hresp; try discriminate;
    injection Hresp as <-;
    unfold laplace4_response, laplace8_response, sobel_response, sobel_Gx,
      sobel_Gy, prewitt_response, prewitt_Gx, prewitt_Gy;
    f_equal; lia.
Qed.

(** *** Transposed images *)

(** X9.  When a second source is the transpose of the first (its width is the
    height of the first, its height the width, and its pixel at column y,
    row x is the pixel of the first at column x, row y), then for each of
    the four software paths that completes on both, the response left at
    the interior pixel (y, x) of the second destination is the response
    left at the interior pixel (x, y) of the first. *)
Theorem transposed_source_gives_transposed_interior
    src dst src' dst' n r r' status out status' out' :
  valid_pair src dst → valid_pair src' dst' →
  width src' = height src → height src' = width src →
  (∀ x y, 0 ≤ x < width src → 0 ≤ y < height src →
          pixel_at (imagedata src') (width src') y x
          = pixel_at (imagedata src) (width src) x y) →
  software_paths src dst !! n = Some r → r = Some (status, out) →
  software_paths src' dst' !! n = Some r' → r' = Some (status', out') →
  ∀ x y, 1 ≤ x ≤ width src - 2 → 1 ≤ y ≤ height src - 2 →
    load out' (y + width src' * x) = load out (x + width src * y).
Proof.
  intros Hv Hv' Hw Hh Ht Hr Hrun Hr' Hrun' x y Hx Hy.
  assert (Hresp : is_Some (path_responses !! n)).
  { apply lookup_lt_is_Some. apply lookup_lt_Some in Hr. exact Hr. }
  destruct Hresp as [resp Hresp].
  destruct (software_path_result src dst n r resp status out
              Hv Hr Hresp Hrun) as (_ & _ & Hval & _).
  destruct (software_path_result src' dst' n r' resp status' out'
              Hv' Hr' Hresp Hrun') as (_ & _ & Hval' & _).
  replace (x + width src * y) with ((x - 1 + 1) + width src * (y - 1 + 1))
    by (f_equal; [lia | f_equal; lia]).
  replace (y + width src' * x)
    with ((y - 1 + 1) + width src' * (x - 1 + 1))
    by (f_equal; [lia | f_equal; lia]).
  rewrite Hval by lia. rewrite Hval' by lia. f_equal.
  rewrite <- (path_response_transpose n resp
                (window (imagedata src) (width src) (x - 1) (y - 1)) Hresp).
  apply (path_response_window_only n); [exact Hresp|].
  intros dx dy Hdx Hdy. unfold window. apply Ht; lia.
Qed.

Lemma transposed_source_gives_transposed_interior_witness :
  valid_pair sample_wide sample_dst_12 ∧
  valid_pair sample_tall sample_dst_12 ∧
  (∀ x y, 0 ≤ x < width sample_wide → 0 ≤ y < height sample_wide →
          pixel_at (imagedata sample_tall) (width sample_tall) y x
          = pixel_at (imagedata sample_wide) (width sample_wide) x y) ∧
  ∃ out out',
    muSobel sample_wide sample_dst_12 = Some (MU_ERR_SUCCESS, out) ∧
    muSobel sample_tall sample_dst_12 = Some (MU_ERR_SUCCESS, out') ∧
    ∀ x y, 1 ≤ x ≤ width sample_wide - 2 → 1 ≤ y ≤ height sample_wide - 2 →
      load out' (y + width sample_tall * x)
      = load out (x + width sample_wide * y).
Proof.
  assert (Hv : valid_pair sample_wide sample_dst_12) by (repeat split).
  assert (Hv' : valid_pair sample_tall sample_dst_12) by (repeat split).
  assert (Ht : ∀ x y, 0 ≤ x < width sample_wide →
                      0 ≤ y < height sample_wide →
                      pixel_at (imagedata sample_tall) (width sample_tall) y x
                      = pixel_at (imagedata sample_wide)
                          (width sample_wide) x y).
  { simpl. intros x y Hx Hy.
    assert (Ex : x = 0 ∨ x = 1 ∨ x = 2 ∨ x = 3) by lia.
    assert (Ey : y = 0 ∨ y = 1 ∨ y = 2) by lia.
    destruct Ex as [->|[->|[->| ->]]], Ey as [->|[->| ->]]; reflexivity. }
  split; [exact Hv|]. split; [exact Hv'|]. split; [exact Ht|].
  assert (Hrun : ∃ out, muSobel sample_wide sample_dst_12
                        = Some (MU_ERR_SUCCESS, out))
    by (eexists; vm_compute; reflexivity).
  assert (Hrun' : ∃ out', muSobel sample_tall sample_dst_12
                          = Some (MU_ERR_SUCCESS, out'))
    by (eexists; vm_compute; reflexivity).
  destruct Hrun as [out Hrun], Hrun' as [out' Hrun'].
  exists out, out'. split; [exact Hrun|]. split; [exact Hrun'|].
  exact (transposed_source_gives_transposed_interior
           sample_wide sample_dst_12 sample_tall sample_dst_12
           2%nat _ _ MU_ERR_SUCCESS out MU_ERR_SUCCESS out'
           Hv Hv' eq_refl eq_refl Ht eq_refl Hrun eq_refl Hrun').
Defined.

(** *** The last column *)

Lemma wrapped_window_eq inp w j dx dy :
  window inp w (w - 2) j dx dy = wrapped_window inp w j dx dy ∨
  ¬ (0 ≤ dx ≤ 2).
Proof.
  destruct (decide (0 ≤ dx ≤ 2)) as [Hdx|]; [left | by right].
  unfold window, wrapped_window, pixel_at.
  destruct (Z.eqb_spec dx 2) as [->|]; [|reflexivity].
  f_equal. ring.
Qed.

(** X10.  On every pair of images that passes validation, of width at least 2,
    whenever one of the four software paths completes, the byte it leaves
    in the last column of the destination at row j+1 (for each row j the
    loops visit) is the response of a window whose left and middle columns
    are the columns W-2 and W-1 of rows j .. j+2 of the source and whose
    right column is column 0 of rows j+1 .. j+3: the stride addressing
    runs over the end of the row into the next one. *)
Theorem last_column_wraps_into_next_row src dst n r resp status out' j :
  valid_pair src dst →
  software_paths src dst !! n = Some r →
  path_responses !! n = Some resp →
  r = Some (status, out') →
  2 ≤ width src → 0 ≤ j < height src - 1 →
  load out' ((width src - 1) + width src * (j + 1))
  = Some (resp (wrapped_window (imagedata src) (width src) j)).
Proof.
  intros Hv Hr Hresp Hrun Hw Hj.
  destruct (software_path_result src dst n r resp status out'
              Hv Hr Hresp Hrun) as (_ & _ & Hval & _).
  replace (width src - 1) with (width src - 2 + 1) by lia.
  rewrite Hval by lia. f_equal.
  apply (path_response_window_only n); [exact Hresp|].
  intros dx dy Hdx Hdy.
  destruct (wrapped_window_eq (imagedata src) (width src) j dx dy); [done|lia].
Qed.

Lemma last_column_wraps_into_next_row_witness :
  valid_pair sample_src sample_dst ∧
  ∃ out',
    muSobel sample_src sample_dst = Some (MU_ERR_SUCCESS, out') ∧
    load out' ((width sample_src - 1) + width sample_src * (0 + 1))
    = Some (sobel_response
              (wrapped_window (imagedata sample_src) (width sample_src) 0)).
Proof.
  assert (Hv : valid_pair sample_src sample_dst) by (repeat split).
  split; [exact Hv|].
  assert (Hrun : ∃ out', muSobel sample_src sample_dst
                         = Some (MU_ERR_SUCCESS, out'))
    by (eexists; vm_compute; reflexivity).
  destruct Hrun as [out' Hrun]. exists out'. split; [exact Hrun|].
  exact (last_column_wraps_into_next_row sample_src sample_dst 2%nat _
           sobel_response MU_ERR_SUCCESS out' 0 Hv eq_refl eq_refl Hrun
           ltac:(simpl; lia) ltac:(simpl; lia)).
Defined.

(** *** Bytes past the raster *)

(** X11.  When two sources of the same width and height hold the same W x H
    pixels, whatever their buffers hold past the raster, then for each of
    the four software paths that completes on both the responses left at
    the interior pixels are the same. *)
Theorem interior_ignores_bytes_past_the_raster
    src dst src' dst' n r r' status out status' out' :
  valid_pair src dst → valid_pair src' dst' →
  width src' = width src → height src' = height src →
  (∀ x y, 0 ≤ x < width src → 0 ≤ y < height src →
          pixel_at (imagedata src') (width src) x y
          = pixel_at (imagedata src) (width src) x y) →
  software_paths src dst !! n = Some r → r = Some (status, out) →
  software_paths src' dst' !! n = Some r' → r' = Some (status', out') →
  ∀ x y, 1 ≤ x ≤ width src - 2 → 1 ≤ y ≤ height src - 2 →
    load out' (x + width src * y) = load out (x + width src * y).
Proof.
  intros Hv Hv' Hw Hh Hsame Hr Hrun Hr' Hrun' x y Hx Hy.
  assert (Hresp : is_Some (path_responses !! n)).
  { apply lookup_lt_is_Some. apply lookup_lt_Some in Hr. exact Hr. }
  destruct Hresp as [resp Hresp].
  destruct (software_path_result src dst n r resp status out
              Hv Hr Hresp Hrun) as (_ & _ & Hval & _).
  destruct (software_path_result src' dst' n r' resp status' out'
              Hv' Hr' Hresp Hrun') as (_ & _ & Hval' & _).
  rewrite Hw, Hh in Hval'.
  replace (x + width src * y) with ((x - 1 + 1) + width src * (y - 1 + 1))
    by (f_equal; [lia | f_equal; lia]).
  rewrite Hval, Hval' by lia. f_equal.
  apply (path_response_window_only n); [exact Hresp|].
  intros dx dy Hdx Hdy. unfold window. apply Hsame; lia.
Qed.

Lemma interior_ignores_bytes_past_the_raster_witness :
  valid_pair sample_src sample_dst ∧
  valid_pair sample_src_other_padding sample_dst ∧
  (∀ x y, 0 ≤ x < width sample_src → 0 ≤ y < height sample_src →
          pixel_at (imagedata sample_src_other_padding) (width sample_src) x y
          = pixel_at (imagedata sample_src) (width sample_src) x y) ∧
  ∃ out out',
    muLaplace sample_src sample_dst x02 = Some (MU_ERR_SUCCESS, out) ∧
    muLaplace sample_src_other_padding sample_dst x02
    = Some (MU_ERR_SUCCESS, out') ∧
    ∀ x y, 1 ≤ x ≤ width sample_src - 2 → 1 ≤ y ≤ height sample_src - 2 →
      load out' (x + width sample_src * y)
      = load out (x + width sample_src * y).
Proof.
  assert (Hv : valid_pair sample_src sample_dst) by (repeat split).
  assert (Hv' : valid_pair sample_src_other_padding sample_dst)
    by (repeat split).
  assert (Hsame : ∀ x y, 0 ≤ x < width sample_src →
                         0 ≤ y < height sample_src →
                         pixel_at (imagedata sample_src_other_padding)
                           (width sample_src) x y
                         = pixel_at (imagedata sample_src)
                             (width sample_src) x y).
  { simpl. intros x y Hx Hy.
    assert (Ex : x = 0 ∨ x = 1 ∨ x = 2) by lia.
    assert (Ey : y = 0 ∨ y = 1 ∨ y = 2) by lia.
    destruct Ex as [->|[->| ->]], Ey as [->|[->| ->]]; reflexivity. }
  split; [exact Hv|]. split; [exact Hv'|]. split; [exact Hsame|].
  assert (Hrun : ∃ out, muLaplace sample_src sample_dst x02
                        = Some (MU_ERR_SUCCESS, out))
    by (eexists; vm_compute; reflexivity).
  assert (Hrun' : ∃ out', muLaplace sample_src_other_padding sample_dst x02
                          = Some (MU_ERR_SUCCESS, out'))
    by (eexists; vm_compute; reflexivity).
  destruct Hrun as [out Hrun], Hrun' as [out' Hrun'].
  exists out, out'. split; [exact Hrun|]. split; [exact Hrun'|].
  exact (interior_ignores_bytes_past_the_raster
           sample_src sample_dst sample_src_other_padding sample_dst
           1%nat _ _ MU_ERR_SUCCESS out MU_ERR_SUCCESS out'
           Hv Hv' eq_refl eq_refl Hsame eq_refl Hrun eq_refl Hrun').
Defined.
